(** * Reference-counted handle graph of rclpy_common (handle.c)

    A shallow embedding of [src/rclpy/src/rclpy_common/src/handle.c] and the
    properties of its four operations: [_rclpy_create_handle],
    [_rclpy_handle_add_dependency], [_rclpy_handle_dec_ref] and
    [_rclpy_handle_get_pointer], and of the three functions that tie a
    handle to a Python capsule: [rclpy_create_handle_capsule],
    [_rclpy_handle_capsule_destructor] and
    [rclpy_handle_get_pointer_from_capsule].

    Modelling choices.
    - Pointers and [size_t] values are 64-bit and are carried by [Z]; [NULL]
      is [0]; arithmetic on [size_t] wraps modulo [2^64] ([wrap]).
    - The C heap is a finite map from addresses to handle records.  The
      [dependencies] array of a handle is reachable through that handle only
      (the pointer is never copied out of the struct), so its contents are
      kept in the record: [None] is the [NULL] pointer, [Some l] an allocated
      array whose slots are [l].
    - The allocator is external; it refuses or grants each request as a
      script in the state says, and it chooses addresses freely among the
      non-null addresses that are not in use.  It cannot grant more bytes
      than the address space has.
    - Calls of destructors and of [allocator.deallocate] are recorded in a
      trace, in the order in which the code performs them.  A destructor is
      an opaque callback: it does not touch the graph.
    - Active [assert]s abort; an abort, the use of a dangling pointer and an
      out-of-bounds store are all the outcome [Fault].
    - The capsule functions of the C API of Python are external; a capsule
      is a value that holds a pointer, a name and a destructor, and the
      interpreter keeps an error indicator.
    - [_rclpy_handle_dec_ref] is recursive on the graph, not on a datum; the
      embedding takes a fuel argument and distinguishes [OutOfFuel] from
      [Fault].  That a release returns is proved as such: enough fuel gives
      [Done].

    Main results.
    - [wf], the invariant of the states the program can reach
      ([reachable_wf]): every count is the number of references to the
      handle, one for the creator if it still holds its reference and one
      per slot of a dependency array that holds the handle.  It is kept by
      [create], [add_dependency] and [release] ([wf_create],
      [wf_add_dependency], [wf_release]); in such states no counter wraps.
    - [release_counted]: a release of an outstanding reference returns and
      keeps the counting invariant, also in the middle of a teardown.
    - The theorems marked C1 to C10 below.
    - The theorems marked X1 to X18: further properties of the same
      functions and of the capsule functions, among them that a release
      finalizes each handle it destroys exactly once
      ([destroyed_handles_are_finalized_once]) and that the order in which
      the creators release their references does not matter
      ([finalization_in_any_order]). *)

From stdpp Require Import gmap list fin_maps strings.
From Stdlib Require Import ZArith Lia.

Local Open Scope Z_scope.

(** ** Machine integers *)

Definition SIZE_BITS : Z := 64.
Definition SIZE_MOD : Z := 2 ^ SIZE_BITS.
Definition wrap (z : Z) : Z := z mod SIZE_MOD.

(** [sizeof(rclpy_handle_t)]: two pointers, two [size_t], one function
    pointer; [sizeof(rclpy_handle_t * )]. *)
Definition SIZEOF_HANDLE : Z := 40.
Definition SIZEOF_PTR : Z := 8.

Definition NULL : Z := 0.

(** ** Data model *)

(** [struct rclpy_handle_t]. *)
Record rclpy_handle_t : Type := mk_handle {
  ptr : Z;
  ref_count : Z;
  dependencies : option (list Z);
  num_of_dependencies : Z;
  destructor : Z
}.

Global Instance rclpy_handle_eq_dec : EqDecision rclpy_handle_t.
Proof. solve_decision. Defined.

Definition set_ref_count (v : Z) (h : rclpy_handle_t) : rclpy_handle_t :=
  mk_handle (ptr h) v (dependencies h) (num_of_dependencies h) (destructor h).

Definition set_ptr (v : Z) (h : rclpy_handle_t) : rclpy_handle_t :=
  mk_handle v (ref_count h) (dependencies h) (num_of_dependencies h) (destructor h).

Definition set_destructor (v : Z) (h : rclpy_handle_t) : rclpy_handle_t :=
  mk_handle (ptr h) (ref_count h) (dependencies h) (num_of_dependencies h) v.

Definition set_dependencies (v : option (list Z)) (h : rclpy_handle_t) : rclpy_handle_t :=
  mk_handle (ptr h) (ref_count h) v (num_of_dependencies h) (destructor h).

Definition set_num_of_dependencies (v : Z) (h : rclpy_handle_t) : rclpy_handle_t :=
  mk_handle (ptr h) (ref_count h) (dependencies h) v (destructor h).

(** The slots of the dependencies array ([NULL] has none). *)
Definition deps_list (h : rclpy_handle_t) : list Z :=
  match dependencies h with
  | Some l => l
  | None => []
  end.

(** What the code does to the outside world, in order. *)
Inductive event : Type :=
  | EvDestructor (handle fn arg : Z)   (* handle->destructor(handle->ptr) *)
  | EvFreeDependencies (handle : Z)    (* allocator.deallocate(handle->dependencies) *)
  | EvFreeHandle (handle : Z).         (* allocator.deallocate(handle) *)

Global Instance event_eq_dec : EqDecision event.
Proof. solve_decision. Defined.

Definition ev_handle (e : event) : Z :=
  match e with
  | EvDestructor h _ _ => h
  | EvFreeDependencies h => h
  | EvFreeHandle h => h
  end.

Definition is_destructor_of (a : Z) (e : event) : bool :=
  match e with
  | EvDestructor h _ _ => bool_decide (h = a)
  | _ => false
  end.

(** An answer of the allocator to a request: it refuses (returns [NULL]),
    or it grants the request, at the address [hint] when that address is
    free. *)
Inductive answer : Type :=
  | Refuse
  | Grant (hint : Z).

Definition granted (a : answer) : bool :=
  match a with
  | Refuse => false
  | Grant _ => true
  end.

Definition hint_of (a : answer) : Z :=
  match a with
  | Refuse => 0
  | Grant hint => hint
  end.

(** The state of the program: the heap of handle records, the trace of
    external calls, and the answers the allocator will give to the next
    requests (an exhausted script grants every request). *)
Record state : Type := mk_state {
  heap : gmap Z rclpy_handle_t;
  trace : list event;
  alloc_script : list answer
}.

Definition set_heap (m : gmap Z rclpy_handle_t) (s : state) : state :=
  mk_state m (trace s) (alloc_script s).

Definition emit (e : event) (s : state) : state :=
  mk_state (heap s) (trace s ++ [e]) (alloc_script s).

Definition initial_state (script : list answer) : state :=
  mk_state ∅ [] script.

(** Outcomes of a call. *)
Inductive result (A : Type) : Type :=
  | Done (a : A)
  | Fault
  | OutOfFuel.
Arguments Done {A} a.
Arguments Fault {A}.
Arguments OutOfFuel {A}.

Global Instance result_bind : MBind result := λ A B k r,
  match r with
  | Done a => k a
  | Fault => Fault
  | OutOfFuel => OutOfFuel
  end.

(** [assert(c)]. *)
Definition assert (c : bool) : result unit :=
  if c then Done tt else Fault.

(** Dereference of a handle pointer. *)
Definition load (s : state) (p : Z) : result rclpy_handle_t :=
  match heap s !! p with
  | Some h => Done h
  | None => Fault
  end.

Definition store (p : Z) (h : rclpy_handle_t) (s : state) : state :=
  set_heap (<[p := h]> (heap s)) s.

(** ** Sums over the heap *)

Definition msum (f : rclpy_handle_t → Z) (m : gmap Z rclpy_handle_t) : Z :=
  map_fold (λ _ h acc, f h + acc) 0 m.

Definition handle_bytes (h : rclpy_handle_t) : Z :=
  SIZEOF_HANDLE + SIZEOF_PTR * Z.of_nat (length (deps_list h)).

(** Bytes held by the program. *)
Definition used (s : state) : Z := msum handle_bytes (heap s).

(** ** The allocator

    The allocator ([rcutils_get_default_allocator], of the external
    library rcutils) is known by its interface only: [zero_allocate],
    [reallocate] and [deallocate]; the first two may fail by returning
    [NULL]. *)

(** Modelled from the spec: the allocator answers each request as its
    script says. *)
Definition next_answer (s : state) : answer * state :=
  match alloc_script s with
  | [] => (Grant NULL, s)
  | a :: rest => (a, mk_state (heap s) (trace s) rest)
  end.

Definition fresh_addr (s : state) : Z :=
  fresh (dom (heap s) ∪ {[ NULL ]}).

(** Modelled from the spec: the address of a granted record is non-null
    and not in use; it is the hint of the answer when the hint is such an
    address. *)
Definition place (hint : Z) (s : state) : Z :=
  match heap s !! hint with
  | None => if hint =? NULL then fresh_addr s else hint
  | Some _ => fresh_addr s
  end.

Definition zero_handle : rclpy_handle_t := mk_handle 0 0 None 0 0.

(** Modelled from the spec:
    [allocator.zero_allocate(1, sizeof(rclpy_handle_t), allocator.state)]
    returns the address of a zeroed record, or [NULL].  The request fails
    when the answer is [Refuse] or when the address space ([2^64] bytes)
    cannot hold one more record; a failed request changes nothing. *)
Definition zero_allocate (s : state) : Z * state :=
  let '(ans, s1) := next_answer s in
  if granted ans && (used s1 + SIZEOF_HANDLE <=? SIZE_MOD)
  then let a := place (hint_of ans) s1 in (a, store a zero_handle s1)
  else (NULL, s1).

(** The array [reallocate] returns for [size] bytes: [size / sizeof(pointer)]
    slots, the old ones kept, the new ones indeterminate (written here as
    [NULL]; the code stores into the new slot before it is read). *)
Definition resize (old : option (list Z)) (size : Z) : list Z :=
  let n := Z.to_nat (size / SIZEOF_PTR) in
  take n (default [] old ++ replicate n NULL).

(** Modelled from the spec: [allocator.reallocate(old, size, allocator.state)]
    returns the resized array, or [None] for [NULL]; a failed request
    leaves the old array as it is. *)
Definition reallocate (old : option (list Z)) (size : Z) (s : state)
  : option (list Z) * state :=
  let '(ans, s1) := next_answer s in
  if granted ans
     && (used s1 - SIZEOF_PTR * Z.of_nat (length (default [] old)) + size <=? SIZE_MOD)
  then (Some (resize old size), s1)
  else (None, s1).

(** ** The operations of handle.c *)

(** [_rclpy_create_handle(ptr, destructor)]; the result is the address of
    the handle, [NULL] on allocation failure. *)
Definition _rclpy_create_handle (p d : Z) (s : state) : result (Z * state) :=
  assert (negb (p =? NULL));;
  assert (negb (d =? NULL));;
  let '(handle, s1) := zero_allocate s in
  if handle =? NULL then Done (NULL, s1)
  else
    h ← load s1 handle;
    let s2 := store handle (set_ptr p h) s1 in
    h ← load s2 handle;
    let s3 := store handle (set_ref_count (wrap (ref_count h + 1)) h) s2 in
    h ← load s3 handle;
    let s4 := store handle (set_destructor d h) s3 in
    Done (handle, s4).

Inductive rcutils_ret_t : Type := RCUTILS_RET_OK | RCUTILS_RET_ERROR.

(** [new_dependencies[i] = v], a store into an allocated array. *)
Definition array_store (l : list Z) (i : Z) (v : Z) : result (list Z) :=
  if (0 <=? i) && (i <? Z.of_nat (length l))
  then Done (<[Z.to_nat i := v]> l)
  else Fault.

(** [_rclpy_handle_add_dependency(dependent, dependency)]. *)
Definition _rclpy_handle_add_dependency (dependent dependency : Z) (s : state)
  : result (rcutils_ret_t * state) :=
  assert (negb (dependent =? NULL));;
  assert (negb (dependency =? NULL));;
  h ← load s dependent;
  let '(new_dependencies, s1) :=
    reallocate (dependencies h)
               (wrap (wrap (num_of_dependencies h + 1) * SIZEOF_PTR)) s in
  match new_dependencies with
  | None => Done (RCUTILS_RET_ERROR, s1)
  | Some arr =>
      h ← load s1 dependent;
      arr ← array_store arr (num_of_dependencies h) dependency;
      let s2 := store dependent
                  (set_num_of_dependencies (wrap (num_of_dependencies h + 1)) h) s1 in
      h ← load s2 dependent;
      let s3 := store dependent (set_dependencies (Some arr) h) s2 in
      h ← load s3 dependency;
      let s4 := store dependency (set_ref_count (wrap (ref_count h + 1)) h) s3 in
      Done (RCUTILS_RET_OK, s4)
  end.

(** The condition of the [assert] in [_rclpy_handle_dec_ref]. *)
Definition dependencies_consistent (h : rclpy_handle_t) : bool :=
  (negb (num_of_dependencies h =? 0) && bool_decide (dependencies h ≠ None))
  || ((num_of_dependencies h =? 0) && bool_decide (dependencies h = None)).

(** Modelled from the spec: [allocator.deallocate] of the array and of the
    record of [handle]; the record leaves the heap. *)
Definition deallocate_dependencies (handle : Z) (s : state) : state :=
  emit (EvFreeDependencies handle) s.

Definition deallocate_handle (handle : Z) (s : state) : state :=
  emit (EvFreeHandle handle) (set_heap (delete handle (heap s)) s).

(** [_rclpy_handle_dec_ref(handle)], and its [for] loop from index [i] on.
    The loop reads [handle->num_of_dependencies] and
    [handle->dependencies[i]] from the heap at every iteration, as the code
    does. *)
Fixpoint _rclpy_handle_dec_ref (fuel : nat) (handle : Z) (s : state) : result state :=
  match fuel with
  | O => OutOfFuel
  | S fuel' =>
      if handle =? NULL then Done s
      else
        h ← load s handle;
        assert (dependencies_consistent h);;
        let count := wrap (ref_count h - 1) in
        let s1 := store handle (set_ref_count count h) s in
        if count =? 0 then
          let s2 := if destructor h =? NULL then s1
                    else emit (EvDestructor handle (destructor h) (ptr h)) s1 in
          s3 ← dec_ref_loop fuel' handle 0 s2;
          Done (deallocate_handle handle (deallocate_dependencies handle s3))
        else Done s1
  end
with dec_ref_loop (fuel : nat) (handle : Z) (i : Z) (s : state) : result state :=
  match fuel with
  | O => OutOfFuel
  | S fuel' =>
      h ← load s handle;
      if i <? num_of_dependencies h then
        match dependencies h with
        | None => Fault
        | Some arr =>
            match arr !! Z.to_nat i with
            | None => Fault
            | Some d =>
                s1 ← _rclpy_handle_dec_ref fuel' d s;
                dec_ref_loop fuel' handle (wrap (i + 1)) s1
            end
        end
      else Done s
  end.

(** [_rclpy_handle_get_pointer(handle)]. *)
Definition _rclpy_handle_get_pointer (handle : Z) (s : state) : result Z :=
  if handle =? NULL then Done NULL
  else h ← load s handle; Done (ptr h).

(** The names the specification uses for the four operations. *)
Abbreviation create := _rclpy_create_handle (only parsing).
Abbreviation add_dependency := _rclpy_handle_add_dependency (only parsing).
Abbreviation release := _rclpy_handle_dec_ref (only parsing).
Abbreviation get_pointer := _rclpy_handle_get_pointer (only parsing).

(** ** Validity of records and liveness *)

(** The representation invariant of one record: the counters are [size_t]
    values, the recorded length is the length of the array, the [assert] of
    [_rclpy_handle_dec_ref] holds, and resource and destructor are the
    non-null values [_rclpy_create_handle] insists on. *)
Definition handle_valid (h : rclpy_handle_t) : bool :=
  (0 <=? ref_count h) && (ref_count h <? SIZE_MOD)
  && (num_of_dependencies h =? Z.of_nat (length (deps_list h)))
  && (num_of_dependencies h <? SIZE_MOD)
  && dependencies_consistent h
  && negb (ptr h =? NULL) && negb (destructor h =? NULL).

(** A live handle: a valid record at a non-null address, with at least one
    owner. *)
Definition live (s : state) (a : Z) (h : rclpy_handle_t) : Prop :=
  a ≠ NULL ∧ heap s !! a = Some h ∧ handle_valid h = true ∧ 1 ≤ ref_count h.


(** Number of slots of [l] that hold [a]. *)
Fixpoint occ (a : Z) (l : list Z) : Z :=
  match l with
  | [] => 0
  | x :: l' => (if bool_decide (x = a) then 1 else 0) + occ a l'
  end.

(** A handle whose count has reached zero is being torn down: its slots no
    longer count as references. *)
Definition out_edges (a : Z) (h : rclpy_handle_t) : Z :=
  if ref_count h =? 0 then 0 else occ a (deps_list h).

(** References to [a] held by dependency arrays. *)
Definition incoming (s : state) (a : Z) : Z := msum (out_edges a) (heap s).

Definition rcount (s : state) (a : Z) : Z :=
  match heap s !! a with
  | Some h => ref_count h
  | None => 0
  end.

Definition live_weight (h : rclpy_handle_t) : Z :=
  if ref_count h =? 0 then 0 else 1.

Definition live_count (s : state) : Z := msum live_weight (heap s).

(** The counting invariant: [refs] lists the references held outside the
    heap (by the owners of the capsules, or by a release in progress); the
    count of every handle is the number of references to it. *)
Definition counted (refs : list Z) (s : state) : Prop :=
  heap s !! NULL = None
  ∧ (∀ a h, heap s !! a = Some h → handle_valid h = true)
  ∧ (∀ a, rcount s a = occ a refs + incoming s a).

(** The states the four operations move between: each handle has at most
    one owner outside the graph (its creator), no handle is half torn
    down, and the records fit in the address space. *)
Definition wf (owners : list Z) (s : state) : Prop :=
  counted owners s
  ∧ NoDup owners
  ∧ (∀ a h, heap s !! a = Some h → ref_count h ≠ 0)
  ∧ used s ≤ SIZE_MOD.

(** "For each entry in [dependencies], in order, recursively invoke
    release on it", as a recursion on the sequence. *)
Fixpoint release_all (fuel : nat) (ds : list Z) (s : state) : result state :=
  match ds with
  | [] => Done s
  | d :: ds' => s1 ← release fuel d s; release_all fuel ds' s1
  end.

(** Number of calls of the destructor of handle [a] in a trace. *)
Definition destructor_calls (a : Z) (t : list event) : nat :=
  length (filter (λ e, is_destructor_of a e = true) t).

(** [e1] occurs in the trace strictly before [e2]. *)
Definition before (e1 e2 : event) (t : list event) : Prop :=
  ∃ t1 t2 t3, t = t1 ++ e1 :: t2 ++ e2 :: t3.

(** ** Auxiliary definitions for the statements and proofs *)

(** The grow step of [_rclpy_handle_add_dependency] for the record [h] of
    the dependent: the [reallocate] call with the arguments the code
    passes. *)
Definition grow (h : rclpy_handle_t) (s : state) : option (list Z) * state :=
  reallocate (dependencies h)
             (wrap (wrap (num_of_dependencies h + 1) * SIZEOF_PTR)) s.

Definition slots (h : rclpy_handle_t) : Z := Z.of_nat (length (deps_list h)).

(** The record of the dependent after a successful call. *)
Definition with_dependency (y : Z) (h : rclpy_handle_t) : rclpy_handle_t :=
  set_dependencies (Some (deps_list h ++ [y]))
    (set_num_of_dependencies (num_of_dependencies h + 1) h).

(** The state after a successful [add_dependency x y]; when [x = y] the
    count is incremented in the record that has just received the slot. *)
Definition linked (x y : Z) (hx hy : rclpy_handle_t) (s s1 : state) : state :=
  let hx' := with_dependency y hx in
  let hy' := if decide (x = y) then hx' else hy in
  set_heap (<[y := set_ref_count (ref_count hy + 1) hy']> (<[x := hx']> (heap s))) s1.

(** What a release can do to the heap: remove records and change counts.
    No other field of a surviving record changes, nothing is allocated,
    the trace only grows. *)
Definition shrinks (s s' : state) : Prop :=
  alloc_script s' = alloc_script s
  ∧ (∃ t, trace s' = trace s ++ t)
  ∧ (∀ a h', heap s' !! a = Some h' →
       ∃ h, heap s !! a = Some h ∧ h' = set_ref_count (ref_count h') h).

(** How a release relates the state before and after: besides [shrinks],
    records whose count is zero (handles being torn down further up the
    call stack) are left as they are, no record is left behind with a zero
    count, and every event is about a handle that had owners. *)
Definition released (s s' : state) : Prop :=
  shrinks s s'
  ∧ (∀ x h, heap s !! x = Some h → ref_count h = 0 → heap s' !! x = Some h)
  ∧ (∀ x h', heap s' !! x = Some h' → ref_count h' = 0 → heap s !! x = Some h')
  ∧ (∃ t, trace s' = trace s ++ t ∧ Forall (λ e, rcount s (ev_handle e) ≠ 0) t).

(** The specification of a release that the induction carries: from a
    counted state in which the released reference is one of the
    outstanding ones, the call returns (with enough fuel) in a counted
    state with that reference gone. *)
Definition release_ok (n : nat) : Prop :=
  ∀ s refs a, live_count s ≤ Z.of_nat n → counted (a :: refs) s →
    ∃ fuel s', release fuel a s = Done s' ∧ counted refs s' ∧ released s s'.

(** The states the program can be in: from the empty heap, by [create]
    with non-null arguments, [add_dependency] between handles of the heap,
    and [release] by an owner of its own reference; the allocator may
    answer as it likes.  [owners] lists the handles whose creator still
    holds its reference. *)
Inductive reachable : list Z → state → Prop :=
  | reach_initial script :
      reachable [] (initial_state script)
  | reach_allocator owners s script :
      reachable owners s →
      reachable owners (mk_state (heap s) (trace s) script)
  | reach_create owners s r d H s' :
      reachable owners s → r ≠ NULL → d ≠ NULL →
      create r d s = Done (H, s') →
      reachable (if H =? NULL then owners else H :: owners) s'
  | reach_add_dependency owners s x y r s' :
      reachable owners s → is_Some (heap s !! x) → is_Some (heap s !! y) →
      add_dependency x y s = Done (r, s') →
      reachable owners s'
  | reach_release owners owners' s a fuel s' :
      reachable owners s → owners ≡ₚ a :: owners' →
      release fuel a s = Done s' →
      reachable owners' s'.

(** ** The diamond scenario *)

(** Create [A], [B], [C], then [add_dependency(A, C)] and
    [add_dependency(B, C)]; the result carries the three handles, what
    the two calls returned and the state. *)
Definition diamond_setup (ra da rb db rc dc : Z) (s : state)
  : result (Z * Z * Z * rcutils_ret_t * rcutils_ret_t * state) :=
  '(A, s) ← create ra da s;
  '(B, s) ← create rb db s;
  '(C, s) ← create rc dc s;
  '(r1, s) ← add_dependency A C s;
  '(r2, s) ← add_dependency B C s;
  Done (A, B, C, r1, r2, s).

(** The scenario as the specification words it, from the empty heap:
    after the setup, release [A], then release [B]; the second release is
    said to drive the count of [C] to zero and to call [D_c]. *)
Definition diamond_as_stated (ra da rb db rc dc : Z) : Prop :=
  ∃ A B C s0 fuel s1 s2,
    diamond_setup ra da rb db rc dc (initial_state [])
      = Done (A, B, C, RCUTILS_RET_OK, RCUTILS_RET_OK, s0)
    ∧ release fuel A s0 = Done s1
    ∧ destructor_calls A (trace s1) = 1%nat
    ∧ 1 ≤ rcount s1 C
    ∧ release fuel B s1 = Done s2
    ∧ destructor_calls B (trace s2) = 1%nat
    ∧ rcount s2 C = 0
    ∧ destructor_calls A (trace s2) = 1%nat
    ∧ destructor_calls C (trace s2) = 1%nat
    ∧ before (EvDestructor A da ra) (EvDestructor C dc rc) (trace s2)
    ∧ before (EvDestructor B db rb) (EvDestructor C dc rc) (trace s2).

Definition final_state (r : result state) : state :=
  match r with
  | Done s => s
  | _ => initial_state []
  end.

Definition setup_state
    (r : result (Z * Z * Z * rcutils_ret_t * rcutils_ret_t * state)) : state :=
  match r with
  | Done (_, _, _, _, _, s) => s
  | _ => initial_state []
  end.

(** The states of the scenario for resources 101, 102, 103 and
    destructors 201, 202, 203: after the setup, after the release of [A],
    after the release of [B]. *)
Definition diamond0 : state :=
  setup_state (diamond_setup 101 201 102 202 103 203 (initial_state [])).
Definition diamond1 : state := final_state (release 4 1 diamond0).
Definition diamond2 : state := final_state (release 4 2 diamond1).

(** ** Concrete states *)

(** One handle; two handles; two handles after [add_dependency 1 2]. *)
Definition one_handle : state :=
  mk_state (<[1 := mk_handle 101 1 None 0 201]> ∅) [] [].

Definition two_handles : state :=
  mk_state (<[2 := mk_handle 103 1 None 0 203]>
              (<[1 := mk_handle 101 1 None 0 201]> ∅)) [] [].

Definition edge_state : state :=
  mk_state (<[2 := mk_handle 103 2 None 0 203]>
              (<[1 := mk_handle 101 1 (Some [2]) 1 201]> ∅)) [] [].

(** [two_handles] with an allocator that refuses the next request. *)
Definition two_handles_no_memory : state :=
  mk_state (heap two_handles) [] [Refuse].

(** ** Holding and cycles *)

(** [a] is held, directly or through dependency arrays, by one of
    [owners]. *)
Inductive held_from (owners : list Z) (s : state) : Z → Prop :=
  | held_owner a : a ∈ owners → held_from owners s a
  | held_slot x hx a :
      held_from owners s x → heap s !! x = Some hx → a ∈ deps_list hx →
      held_from owners s a.

(** The dependency relation has no cycle: some level grows along every
    slot. *)
Definition acyclic (s : state) : Prop :=
  ∃ level : Z → nat, ∀ x hx d,
    heap s !! x = Some hx → d ∈ deps_list hx → (level x < level d)%nat.

(** ** Finalization *)

(** The record at [x] is in the heap of [s] and no longer in that of [s']. *)
Definition destroyed (s s' : state) (x : Z) : bool :=
  match heap s !! x, heap s' !! x with
  | Some _, None => true
  | _, _ => false
  end.

(** Number of deallocations of the record of handle [a] in a trace. *)
Definition handle_frees (a : Z) (t : list event) : nat :=
  length (filter (λ e, e = EvFreeHandle a) t).

(** The events [t] finalize exactly the handles destroyed between [s] and
    [s']: every destructor call is the call of the destructor stored in
    the record on the resource stored in the record, the destructor of a
    destroyed handle is called once and its record deallocated once, and
    no other handle has its destructor called or its record deallocated. *)
Definition finalizes (s s' : state) (t : list event) : Prop :=
  (∀ x fn arg, EvDestructor x fn arg ∈ t →
     ∃ h, heap s !! x = Some h ∧ arg = ptr h ∧ fn = destructor h)
  ∧ ∀ x, let k := if destroyed s s' x then 1%nat else 0%nat in
         destructor_calls x t = k ∧ handle_frees x t = k.

Definition finalized_once (s s' : state) : Prop :=
  (∀ x h', heap s' !! x = Some h' →
     ∃ h, heap s !! x = Some h ∧ ptr h' = ptr h ∧ destructor h' = destructor h)
  ∧ ∃ t, trace s' = trace s ++ t ∧ finalizes s s' t.

(** ** Chains of handles *)

(** A chain of handles, given by (address, resource, destructor): the
    array of each holds the next one and the last has no array; every
    count is 1 (the creator's reference for the first, the slot of the
    predecessor for the others). *)
Definition chain_record (r d : Z) (rest : list (Z * Z * Z)) : rclpy_handle_t :=
  match rest with
  | [] => mk_handle r 1 None 0 d
  | (b, _, _) :: _ => mk_handle r 1 (Some [b]) 1 d
  end.

Fixpoint chain_heap (l : list (Z * Z * Z)) (m : gmap Z rclpy_handle_t)
  : gmap Z rclpy_handle_t :=
  match l with
  | [] => m
  | (a, r, d) :: rest => <[a := chain_record r d rest]> (chain_heap rest m)
  end.

(** The calls a release of the head of the chain makes: the destructors
    from the head to the end, then the deallocations from the end back to
    the head. *)
Fixpoint chain_events (l : list (Z * Z * Z)) : list event :=
  match l with
  | [] => []
  | (a, r, d) :: rest =>
      EvDestructor a d r :: chain_events rest ++ [EvFreeDependencies a; EvFreeHandle a]
  end.

Definition chain_addrs (l : list (Z * Z * Z)) : list Z := (λ e, e.1.1) <$> l.

(** The chain is laid out at distinct non-null addresses outside [m], with
    non-null destructors. *)
Definition chain_ok (l : list (Z * Z * Z)) (m : gmap Z rclpy_handle_t) : Prop :=
  NoDup (chain_addrs l)
  ∧ Forall (λ e, e.1.1 ≠ NULL ∧ e.2 ≠ NULL ∧ m !! e.1.1 = None) l.

(** ** Capsules *)

(** Modelled from the spec: the boundary object of the host runtime is a
    Python capsule (an external collaborator, the [PyCapsule_*] functions
    of the C API of Python): an object that holds a non-null pointer, a
    name ([NULL] or a C string) and a destructor function. *)
Inductive capsule_destructor : Type :=
  | handle_capsule_destructor   (* _rclpy_handle_capsule_destructor *)
  | other_capsule_destructor.

Inductive PyObject : Type :=
  | PyCapsule (pointer : Z) (name : option string)
              (destructor : option capsule_destructor)
  | PyNotCapsule.

Inductive py_exception : Type := PyExc_ValueError | PyExc_MemoryError.

(** The program with its host runtime: the handle graph, the error
    indicator of the interpreter, and the answers the interpreter will
    give to the next requests for a new object ([false]: no memory; an
    exhausted script grants every request). *)
Record py_state : Type := mk_py {
  graph : state;
  py_error : option py_exception;
  py_script : list bool
}.

Definition set_graph (s : state) (py : py_state) : py_state :=
  mk_py s (py_error py) (py_script py).

Definition py_raise (e : py_exception) (py : py_state) : py_state :=
  mk_py (graph py) (Some e) (py_script py).

(** Modelled from the spec: a [PyObject *] is a legal capsule when it is
    not [NULL], is a capsule, and its pointer is not [NULL]. *)
Definition is_legal_capsule (op : option PyObject) : bool :=
  match op with
  | Some (PyCapsule p _ _) => negb (p =? NULL)
  | _ => false
  end.

(** Modelled from the spec: [PyCapsule_GetName(capsule)]; on an illegal
    capsule it raises and returns [NULL]. *)
Definition PyCapsule_GetName (op : option PyObject) (py : py_state)
  : option string * py_state :=
  match op with
  | Some (PyCapsule p name _) =>
      if is_legal_capsule op then (name, py)
      else (None, py_raise PyExc_ValueError py)
  | _ => (None, py_raise PyExc_ValueError py)
  end.

(** Modelled from the spec: [PyCapsule_GetPointer(capsule, name)] returns
    the pointer when [name] is the name stored in the capsule (both [NULL],
    or equal strings); otherwise it raises and returns [NULL]. *)
Definition PyCapsule_GetPointer (op : option PyObject) (name : option string)
    (py : py_state) : Z * py_state :=
  match op with
  | Some (PyCapsule p stored _) =>
      if is_legal_capsule op && bool_decide (name = stored) then (p, py)
      else (NULL, py_raise PyExc_ValueError py)
  | _ => (NULL, py_raise PyExc_ValueError py)
  end.

(** Modelled from the spec: [PyCapsule_New(pointer, name, destructor)]
    refuses a [NULL] pointer, and fails when the interpreter has no memory
    for the object; both raise and return [NULL]. *)
Definition PyCapsule_New (pointer : Z) (name : option string)
    (destructor : option capsule_destructor) (py : py_state)
  : option PyObject * py_state :=
  if pointer =? NULL then (None, py_raise PyExc_ValueError py)
  else
    match py_script py with
    | [] => (Some (PyCapsule pointer name destructor), py)
    | true :: rest =>
        (Some (PyCapsule pointer name destructor), mk_py (graph py) (py_error py) rest)
    | false :: rest =>
        (None, mk_py (graph py) (Some PyExc_MemoryError) rest)
    end.

(** [_rclpy_handle_capsule_destructor(capsule)]. *)
Definition _rclpy_handle_capsule_destructor (fuel : nat) (capsule : option PyObject)
    (py : py_state) : result py_state :=
  let '(name, py1) := PyCapsule_GetName capsule py in
  let '(handle, py2) := PyCapsule_GetPointer capsule name py1 in
  if handle =? NULL then Done py2
  else
    s ← release fuel handle (graph py2);
    Done (set_graph s py2).

(** [rclpy_create_handle_capsule(ptr, name, destructor)]. *)
Definition rclpy_create_handle_capsule (p : Z) (name : option string) (d : Z)
    (py : py_state) : result (option PyObject * py_state) :=
  '(handle, s) ← create p d (graph py);
  let py1 := set_graph s py in
  if handle =? NULL then Done (None, py1)
  else Done (PyCapsule_New handle name (Some handle_capsule_destructor) py1).

(** [rclpy_handle_get_pointer_from_capsule(capsule, name)]. *)
Definition rclpy_handle_get_pointer_from_capsule (capsule : option PyObject)
    (name : option string) (py : py_state) : result (Z * py_state) :=
  let '(handle, py1) := PyCapsule_GetPointer capsule name py in
  p ← get_pointer handle (graph py1);
  Done (p, py1).

(** ** Further concrete states *)

(** [edge_state] after the creator of handle 2 has released its
    reference, and after the creator of handle 1 has released its own as
    well. *)
Definition edge_owner_gone : state := final_state (release 1 2 edge_state).
Definition all_released : state := final_state (release 4 1 edge_owner_gone).

(** The levels of the handles of [edge_state]. *)
Definition edge_level (x : Z) : nat := if x =? 1 then 0%nat else 1%nat.

(** The interpreter before and after
    [rclpy_create_handle_capsule(101, "rcl_node_t", 201)] on the empty
    heap, and the capsule it returns. *)
Definition node_name : option string := Some "rcl_node_t"%string.
Definition empty_py : py_state := mk_py (initial_state []) None [].
Definition node_py : py_state := mk_py one_handle None [].
Definition node_capsule : PyObject :=
  PyCapsule 1 node_name (Some handle_capsule_destructor).

(** ** Sums over the heap: lemmas *)

Section msum.
Variable f : rclpy_handle_t → Z.

Lemma msum_empty : msum f ∅ = 0.
Proof. unfold msum. by rewrite map_fold_empty. Qed.

Lemma msum_insert m k x :
  m !! k = None → msum f (<[k := x]> m) = f x + msum f m.
Proof.
  intros Hk. unfold msum. rewrite map_fold_insert_L; [done | | done].
  intros. lia.
Qed.

Lemma msum_delete m k x :
  m !! k = Some x → msum f m = f x + msum f (delete k m).
Proof.
  intros Hk. rewrite <- (insert_delete_id m k x) at 1 by done.
  apply msum_insert, lookup_delete_eq.
Qed.

Lemma msum_update m k x y :
  m !! k = Some y → msum f (<[k := x]> m) = msum f m - f y + f x.
Proof.
  intros Hk. rewrite (msum_delete m k y Hk).
  rewrite <- insert_delete_eq, msum_insert by apply lookup_delete_eq. lia.
Qed.

Lemma msum_nonneg m : (∀ x, 0 ≤ f x) → 0 ≤ msum f m.
Proof.
  intros Hf. induction m as [|k x m Hk IH] using map_ind.
  - by rewrite msum_empty.
  - rewrite msum_insert by done. specialize (Hf x). lia.
Qed.
End msum.

(** A sum over a heap bounds a smaller sum over a part of it. *)
Lemma msum_le_sub (f g : rclpy_handle_t → Z) (m' m : gmap Z rclpy_handle_t) :
  (∀ x, 0 ≤ g x) →
  (∀ k x', m' !! k = Some x' → ∃ x, m !! k = Some x ∧ f x' ≤ g x) →
  msum f m' ≤ msum g m.
Proof.
  intros Hg. revert m. induction m' as [|k x' m' Hk IH] using map_ind; intros m Hsub.
  - rewrite msum_empty. by apply msum_nonneg.
  - destruct (Hsub k x') as (x & Hx & Hle); [apply lookup_insert_eq|].
    rewrite msum_insert by done. rewrite (msum_delete g m k x Hx).
    assert (msum f m' ≤ msum g (delete k m)); [|lia].
    apply IH. intros j y' Hj.
    assert (j ≠ k) by (intros ->; congruence).
    destruct (Hsub j y') as (y & Hy & Hyle); [by rewrite lookup_insert_ne|].
    exists y. by rewrite lookup_delete_ne.
Qed.

(** ** Elementary facts *)

Lemma SIZE_MOD_eq : SIZE_MOD = 18446744073709551616.
Proof. reflexivity. Qed.

Lemma wrap_small z : 0 ≤ z < SIZE_MOD → wrap z = z.
Proof. intros. unfold wrap. by apply Z.mod_small. Qed.

Lemma handle_valid_spec h :
  handle_valid h = true ↔
  0 ≤ ref_count h < SIZE_MOD
  ∧ num_of_dependencies h = Z.of_nat (length (deps_list h))
  ∧ num_of_dependencies h < SIZE_MOD
  ∧ dependencies_consistent h = true
  ∧ ptr h ≠ NULL ∧ destructor h ≠ NULL.
Proof.
  unfold handle_valid. rewrite !andb_true_iff, !negb_true_iff.
  rewrite !Z.leb_le, !Z.ltb_lt, !Z.eqb_eq, !Z.eqb_neq. tauto.
Qed.

Lemma fresh_addr_spec s : fresh_addr s ≠ NULL ∧ heap s !! fresh_addr s = None.
Proof.
  unfold fresh_addr.
  pose proof (is_fresh (dom (heap s) ∪ {[NULL]})) as Hf.
  split.
  - intros Heq. apply Hf. rewrite Heq. set_solver.
  - apply not_elem_of_dom. set_solver.
Qed.

Lemma place_spec hint s : place hint s ≠ NULL ∧ heap s !! place hint s = None.
Proof.
  pose proof (fresh_addr_spec s) as Hfresh.
  unfold place. destruct (heap s !! hint) eqn:Hh; [done|].
  destruct (hint =? NULL) eqn:Hn; [done|]. by apply Z.eqb_neq in Hn.
Qed.

Lemma next_answer_frame s :
  heap (next_answer s).2 = heap s ∧ trace (next_answer s).2 = trace s.
Proof. unfold next_answer. by destruct (alloc_script s). Qed.

Lemma zero_allocate_null s :
  (zero_allocate s).1 = NULL →
  heap (zero_allocate s).2 = heap s ∧ trace (zero_allocate s).2 = trace s.
Proof.
  unfold zero_allocate. pose proof (next_answer_frame s) as Hn.
  destruct (next_answer s) as [ok s1]; simpl in *.
  destruct (granted ok && _); simpl; [|done].
  intros Hz. by destruct (place_spec (hint_of ok) s1).
Qed.

Lemma zero_allocate_ok s :
  (zero_allocate s).1 ≠ NULL →
  heap s !! (zero_allocate s).1 = None
  ∧ heap (zero_allocate s).2 = <[(zero_allocate s).1 := zero_handle]> (heap s)
  ∧ trace (zero_allocate s).2 = trace s
  ∧ used s + SIZEOF_HANDLE ≤ SIZE_MOD.
Proof.
  unfold zero_allocate. pose proof (next_answer_frame s) as [Hh Ht].
  destruct (next_answer s) as [ok s1]; simpl in *.
  destruct (granted ok && _) eqn:Hok; simpl; [|done].
  intros _. destruct (place_spec (hint_of ok) s1) as [_ Hfresh].
  apply andb_true_iff in Hok as [_ Hcap]. apply Z.leb_le in Hcap.
  unfold used in *. rewrite <- Hh. by rewrite Ht.
Qed.

Lemma reallocate_frame old size s :
  heap (reallocate old size s).2 = heap s
  ∧ trace (reallocate old size s).2 = trace s.
Proof.
  unfold reallocate. pose proof (next_answer_frame s) as Hn.
  destruct (next_answer s) as [ok s1]; simpl in *.
  by destruct (granted ok && _).
Qed.

Lemma load_Some s a h : heap s !! a = Some h → load s a = Done h.
Proof. unfold load. by intros ->. Qed.

Lemma load_store_eq a h s : load (store a h s) a = Done h.
Proof. unfold load, store. simpl. by rewrite lookup_insert_eq. Qed.

Lemma store_store a h h' s : store a h (store a h' s) = store a h s.
Proof. unfold store, set_heap. simpl. by rewrite insert_insert_eq. Qed.

Lemma eqb_NULL_false a : a ≠ NULL → (a =? NULL) = false.
Proof. intros. by apply Z.eqb_neq. Qed.

(** ** Handle creation *)

Lemma create_unfold p d s :
  p ≠ NULL → d ≠ NULL →
  create p d s =
    Done (if (zero_allocate s).1 =? NULL then (NULL, (zero_allocate s).2)
          else ((zero_allocate s).1,
                set_heap (<[(zero_allocate s).1 := mk_handle p 1 None 0 d]> (heap s))
                         (zero_allocate s).2)).
Proof.
  intros Hp Hd. unfold _rclpy_create_handle.
  rewrite (eqb_NULL_false p), (eqb_NULL_false d) by done. simpl.
  destruct (zero_allocate s) as [a s1] eqn:Hz. simpl.
  destruct (a =? NULL) eqn:Ha; [done|]. apply Z.eqb_neq in Ha.
  pose proof (zero_allocate_ok s) as Hok. rewrite Hz in Hok. simpl in Hok.
  destruct (Hok Ha) as (_ & Hheap & _ & _).
  unfold load, store, set_heap; simpl. rewrite Hheap.
  repeat (rewrite ?lookup_insert_eq, ?insert_insert_eq; simpl).
  reflexivity.
Qed.

(** C5: a successful [create(r, d)] with non-null [r] and [d] returns a
    non-null handle [H] that was not in use, whose record has
    [ref_count = 1], no dependencies ([NULL] array, length [0]), resource
    [r] and destructor [d]; nothing is added to the trace (the destructor
    has not been invoked) and [get_pointer(H)] is [r]. *)
Theorem create_success (r d : Z) (s : state) :
  r ≠ NULL → d ≠ NULL → (zero_allocate s).1 ≠ NULL →
  ∃ H s',
    create r d s = Done (H, s')
    ∧ H ≠ NULL
    ∧ heap s !! H = None
    ∧ heap s' = <[H := mk_handle r 1 None 0 d]> (heap s)
    ∧ deps_list (mk_handle r 1 None 0 d) = []
    ∧ trace s' = trace s
    ∧ get_pointer H s' = Done r.
Proof.
  intros Hr Hd Hz. rewrite create_unfold by done.
  rewrite (eqb_NULL_false _ Hz).
  destruct (zero_allocate_ok s Hz) as (Hfresh & _ & Htrace & _).
  eexists _, _. split; [reflexivity|].
  repeat split; try done.
  unfold _rclpy_handle_get_pointer, load; simpl.
  rewrite (eqb_NULL_false _ Hz). by rewrite lookup_insert_eq.
Qed.

Lemma create_success_witness :
  101 ≠ NULL ∧ 201 ≠ NULL ∧ (zero_allocate (initial_state [])).1 ≠ NULL
  ∧ ∃ H s',
      create 101 201 (initial_state []) = Done (H, s')
      ∧ H ≠ NULL
      ∧ heap (initial_state []) !! H = None
      ∧ heap s' = <[H := mk_handle 101 1 None 0 201]> (heap (initial_state []))
      ∧ deps_list (mk_handle 101 1 None 0 201) = []
      ∧ trace s' = trace (initial_state [])
      ∧ get_pointer H s' = Done 101.
Proof.
  split; [discriminate|]. split; [discriminate|]. split; [by vm_compute|].
  apply (create_success 101 201 (initial_state [])); by vm_compute.
Defined.

(** C6: with non-null arguments, [create] always returns; it returns
    [NULL] exactly when [zero_allocate] returned [NULL], and then neither
    the heap nor the trace has changed. *)
Theorem create_fails_iff_allocation_fails (r d : Z) (s : state) :
  r ≠ NULL → d ≠ NULL →
  ∃ H s',
    create r d s = Done (H, s')
    ∧ (H = NULL ↔ (zero_allocate s).1 = NULL)
    ∧ (H = NULL → heap s' = heap s ∧ trace s' = trace s).
Proof.
  intros Hr Hd. rewrite create_unfold by done.
  destruct ((zero_allocate s).1 =? NULL) eqn:Hz.
  - apply Z.eqb_eq in Hz. eexists _, _. split; [reflexivity|].
    split; [done|]. intros _. by apply zero_allocate_null.
  - apply Z.eqb_neq in Hz. eexists _, _. split; [reflexivity|].
    split; [done|]. done.
Qed.

Lemma create_fails_iff_allocation_fails_witness :
  101 ≠ NULL ∧ 201 ≠ NULL
  ∧ ∃ H s',
      create 101 201 (initial_state [Refuse]) = Done (H, s')
      ∧ (H = NULL ↔ (zero_allocate (initial_state [Refuse])).1 = NULL)
      ∧ (H = NULL → heap s' = heap (initial_state [Refuse])
                    ∧ trace s' = trace (initial_state [Refuse])).
Proof.
  split; [discriminate|]. split; [discriminate|].
  apply (create_fails_iff_allocation_fails 101 201 (initial_state [Refuse])); discriminate.
Defined.

(** ** Absent handles *)

(** C7: [release] of the null handle returns at once with the state
    unchanged (no count changes, no destructor runs), and [get_pointer] of
    the null handle is null. *)
Theorem null_handle_noop (fuel : nat) (s : state) :
  release (S fuel) NULL s = Done s ∧ get_pointer NULL s = Done NULL.
Proof. split; reflexivity. Qed.

(** ** Release of a shared handle *)

Lemma dec_ref_shared (fuel : nat) (s : state) (a : Z) (h : rclpy_handle_t) :
  live s a h → 2 ≤ ref_count h →
  release (S fuel) a s = Done (store a (set_ref_count (ref_count h - 1) h) s).
Proof.
  intros (Ha & Hh & Hv & _) Hrc.
  apply handle_valid_spec in Hv as (Hrange & _ & _ & Hcons & _).
  simpl. rewrite (eqb_NULL_false a Ha), (load_Some s a h Hh); simpl.
  rewrite Hcons; simpl. rewrite wrap_small by lia.
  destruct (ref_count h - 1 =? 0) eqn:Hz; [apply Z.eqb_eq in Hz; lia|done].
Qed.

(** C9: [release] of a live handle whose count is at least 2 returns
    (with any positive fuel) and only stores the count minus one in that
    handle's record: the other fields of the record (resource, array,
    length, destructor), every other record, the trace (no destructor
    call, no deallocation) and the allocator are as before. *)
Theorem release_shared (fuel : nat) (s : state) (a : Z) (h : rclpy_handle_t) :
  live s a h → 2 ≤ ref_count h →
  ∃ s',
    release (S fuel) a s = Done s'
    ∧ heap s' = <[a := set_ref_count (ref_count h - 1) h]> (heap s)
    ∧ (∀ b, b ≠ a → heap s' !! b = heap s !! b)
    ∧ trace s' = trace s
    ∧ alloc_script s' = alloc_script s.
Proof.
  intros Hl Hrc. rewrite (dec_ref_shared fuel s a h Hl Hrc).
  eexists. split; [reflexivity|]. simpl. repeat split.
  intros b Hb. by rewrite lookup_insert_ne.
Qed.

(** ** Counting references *)

Lemma occ_nonneg a l : 0 ≤ occ a l.
Proof. induction l as [|x l IH]; simpl; [lia|]. case_bool_decide; lia. Qed.

Lemma occ_le_length a l : occ a l ≤ Z.of_nat (length l).
Proof. induction l as [|x l IH]; simpl; [lia|]. case_bool_decide; lia. Qed.

Lemma occ_app a l k : occ a (l ++ k) = occ a l + occ a k.
Proof. induction l as [|x l IH]; simpl; [lia|]. rewrite IH. lia. Qed.

Lemma occ_pos_elem a l : 0 < occ a l ↔ a ∈ l.
Proof.
  induction l as [|x l IH]; simpl.
  - split; [lia|]. intros H. inversion H.
  - rewrite elem_of_cons. pose proof (occ_nonneg a l).
    case_bool_decide; subst; [intuition lia|].
    rewrite <- IH. intuition (congruence || lia).
Qed.

Lemma occ_NoDup a l : NoDup l → occ a l ≤ 1.
Proof.
  induction 1 as [|x l Hx _ IH]; simpl; [lia|].
  case_bool_decide; [subst|lia].
  assert (¬ 0 < occ a l) by (by rewrite occ_pos_elem). lia.
Qed.

Lemma out_edges_nonneg a h : 0 ≤ out_edges a h.
Proof. unfold out_edges. destruct (_ =? _); [lia|apply occ_nonneg]. Qed.

Lemma incoming_nonneg s a : 0 ≤ incoming s a.
Proof. apply msum_nonneg, out_edges_nonneg. Qed.

Lemma incoming_le_slots s a : incoming s a ≤ msum slots (heap s).
Proof.
  apply msum_le_sub; [unfold slots; lia|].
  intros k x Hk. exists x. split; [done|].
  unfold out_edges, slots. destruct (_ =? _); [lia|apply occ_le_length].
Qed.

Lemma used_ge_slots s a h :
  heap s !! a = Some h → SIZEOF_HANDLE + SIZEOF_PTR * msum slots (heap s) ≤ used s.
Proof.
  intros Ha. unfold used.
  rewrite (msum_delete slots _ _ _ Ha), (msum_delete handle_bytes _ _ _ Ha).
  assert (msum (λ x, SIZEOF_PTR * slots x) (delete a (heap s))
          ≤ msum handle_bytes (delete a (heap s))) as Hle.
  { apply msum_le_sub; [unfold handle_bytes, SIZEOF_HANDLE, SIZEOF_PTR; lia|].
    intros k x Hk. exists x. split; [done|].
    unfold handle_bytes, slots, SIZEOF_HANDLE, SIZEOF_PTR. lia. }
  assert (msum (λ x, SIZEOF_PTR * slots x) (delete a (heap s))
          = SIZEOF_PTR * msum slots (delete a (heap s))) as Heq.
  { generalize (delete a (heap s)). intros m.
    induction m as [|k x m Hk IH] using map_ind.
    - rewrite !msum_empty. lia.
    - rewrite !msum_insert by done. rewrite IH. lia. }
  unfold handle_bytes at 1, slots at 1.
  unfold SIZEOF_HANDLE, SIZEOF_PTR in *. lia.
Qed.

Lemma used_ge_handle s a h : heap s !! a = Some h → handle_bytes h ≤ used s.
Proof.
  intros Ha. unfold used. rewrite (msum_delete handle_bytes _ _ _ Ha).
  assert (0 ≤ msum handle_bytes (delete a (heap s))); [|lia].
  apply msum_nonneg. intros x. unfold handle_bytes, SIZEOF_HANDLE, SIZEOF_PTR. lia.
Qed.

Lemma rcount_Some s a h : heap s !! a = Some h → rcount s a = ref_count h.
Proof. unfold rcount. by intros ->. Qed.

(** In a well-formed state a count is far from the largest [size_t]. *)
Lemma wf_count_bound owners s a h :
  wf owners s → heap s !! a = Some h →
  1 ≤ ref_count h ∧ SIZEOF_PTR * ref_count h + 32 ≤ SIZE_MOD.
Proof.
  intros ((_ & Hvalid & Hcount) & Hnd & Hlive & Hcap) Ha.
  pose proof (Hcount a) as Hc. rewrite (rcount_Some s a h Ha) in Hc.
  pose proof (occ_NoDup a owners Hnd). pose proof (occ_nonneg a owners).
  pose proof (incoming_le_slots s a). pose proof (incoming_nonneg s a).
  pose proof (used_ge_slots s a h Ha).
  pose proof (Hlive a h Ha).
  unfold SIZEOF_HANDLE, SIZEOF_PTR in *. lia.
Qed.

Lemma wf_live owners s a h : wf owners s → heap s !! a = Some h → live s a h.
Proof.
  intros Hwf Ha. pose proof (wf_count_bound owners s a h Hwf Ha) as [? _].
  destruct Hwf as ((Hnull & Hvalid & _) & _).
  repeat split; eauto. intros ->. congruence.
Qed.

(** ** Adding a dependency *)

Lemma add_dependency_unfold x y s hx :
  x ≠ NULL → y ≠ NULL → heap s !! x = Some hx →
  add_dependency x y s =
    match (grow hx s).1 with
    | None => Done (RCUTILS_RET_ERROR, (grow hx s).2)
    | Some arr =>
        arr' ← array_store arr (num_of_dependencies hx) y;
        let hx' := set_dependencies (Some arr')
                     (set_num_of_dependencies (wrap (num_of_dependencies hx + 1)) hx) in
        let s3 := set_heap (<[x := hx']> (heap s)) (grow hx s).2 in
        hy ← load s3 y;
        Done (RCUTILS_RET_OK, store y (set_ref_count (wrap (ref_count hy + 1)) hy) s3)
    end.
Proof.
  intros Hx Hy Hhx. unfold _rclpy_handle_add_dependency.
  rewrite (eqb_NULL_false x), (eqb_NULL_false y) by done. simpl.
  rewrite (load_Some s x hx Hhx). simpl. fold (grow hx s).
  destruct (reallocate_frame (dependencies hx)
              (wrap (wrap (num_of_dependencies hx + 1) * SIZEOF_PTR)) s) as [Hheap _].
  fold (grow hx s) in Hheap.
  destruct (grow hx s) as [[arr|] s1]; simpl in *; [|done].
  assert (load s1 x = Done hx) as -> by (apply load_Some; congruence). simpl.
  destruct (array_store arr (num_of_dependencies hx) y) as [arr'| |]; simpl; try done.
  rewrite load_store_eq. simpl. rewrite store_store.
  assert (∀ h, store x h s1 = set_heap (<[x := h]> (heap s)) s1) as ->; [|done].
  intros h. unfold store. by rewrite Hheap.
Qed.

Lemma resize_grow old n :
  n = length (default [] old) →
  resize old (SIZEOF_PTR * (Z.of_nat n + 1)) = default [] old ++ [NULL].
Proof.
  intros ->. unfold resize, SIZEOF_PTR.
  replace (8 * (Z.of_nat (length (default [] old)) + 1) / 8)
    with (Z.of_nat (S (length (default [] old)))).
  2:{ rewrite Z.mul_comm, Z.div_mul by lia. lia. }
  rewrite Nat2Z.id.
  replace (S (length (default [] old))) with (length (default [] old) + 1)%nat by lia.
  rewrite take_app_add. f_equal.
  by rewrite Nat.add_comm.
Qed.

Lemma array_store_last l v :
  array_store (l ++ [NULL]) (Z.of_nat (length l)) v = Done (l ++ [v]).
Proof.
  unfold array_store. rewrite length_app. simpl.
  assert ((0 <=? Z.of_nat (length l)) &&
          (Z.of_nat (length l) <? Z.of_nat (length l + 1)) = true) as ->.
  { apply andb_true_iff. rewrite Z.leb_le, Z.ltb_lt. lia. }
  rewrite Nat2Z.id. f_equal.
  replace (length l) with (length l + 0)%nat at 1 by lia.
  by rewrite insert_app_r.
Qed.

Lemma deps_list_default h : default [] (dependencies h) = deps_list h.
Proof. unfold deps_list. by destruct (dependencies h). Qed.

(** In a well-formed state no counter of the grow step wraps. *)
Lemma grow_spec owners s x hx :
  wf owners s → heap s !! x = Some hx →
  grow hx s =
    (if granted (next_answer s).1 && (used s + SIZEOF_PTR <=? SIZE_MOD)
     then Some (deps_list hx ++ [NULL]) else None, (next_answer s).2).
Proof.
  intros Hwf Hx. pose proof (wf_live _ _ _ _ Hwf Hx) as (_ & _ & Hv & _).
  apply handle_valid_spec in Hv as (_ & Hnum & _).
  pose proof (used_ge_handle s x hx Hx) as Hused.
  destruct Hwf as (_ & _ & _ & Hcap).
  unfold handle_bytes, SIZEOF_HANDLE, SIZEOF_PTR in Hused. rewrite SIZE_MOD_eq in Hcap.
  unfold grow, reallocate.
  pose proof (next_answer_frame s) as [Hh _].
  destruct (next_answer s) as [ok s1]; simpl in *.
  assert (used s1 = used s) as -> by (unfold used; by rewrite Hh).
  rewrite (wrap_small (num_of_dependencies hx + 1)) by (rewrite SIZE_MOD_eq; lia).
  rewrite wrap_small by (rewrite SIZE_MOD_eq; unfold SIZEOF_PTR; lia).
  rewrite deps_list_default.
  replace (used s - SIZEOF_PTR * Z.of_nat (length (deps_list hx))
           + (num_of_dependencies hx + 1) * SIZEOF_PTR)
    with (used s + SIZEOF_PTR) by (unfold SIZEOF_PTR; lia).
  destruct (granted ok && _); [|done].
  f_equal. f_equal. rewrite Hnum, Z.mul_comm.
  rewrite resize_grow by (by rewrite deps_list_default).
  by rewrite deps_list_default.
Qed.

Lemma add_dependency_wf_spec owners s x y hx hy :
  wf owners s → heap s !! x = Some hx → heap s !! y = Some hy →
  add_dependency x y s =
    if granted (next_answer s).1 && (used s + SIZEOF_PTR <=? SIZE_MOD)
    then Done (RCUTILS_RET_OK, linked x y hx hy s (next_answer s).2)
    else Done (RCUTILS_RET_ERROR, (next_answer s).2).
Proof.
  intros Hwf Hx Hy.
  pose proof (wf_live _ _ _ _ Hwf Hx) as (Hxn & _ & Hv & _).
  pose proof (wf_live _ _ _ _ Hwf Hy) as (Hyn & _ & _ & _).
  apply handle_valid_spec in Hv as (_ & Hnum & Hnumlt & _).
  pose proof (wf_count_bound _ _ _ _ Hwf Hy) as [Hy1 Hy2].
  pose proof (used_ge_handle s x hx Hx) as Hused.
  pose proof Hwf as (_ & _ & _ & Hcap).
  unfold handle_bytes, SIZEOF_HANDLE, SIZEOF_PTR in Hused, Hy2.
  rewrite SIZE_MOD_eq in Hcap, Hy2.
  rewrite (add_dependency_unfold x y s hx) by done.
  rewrite (grow_spec owners s x hx) by done. simpl.
  destruct (_ && _); simpl; [|done].
  rewrite Hnum at 1. rewrite array_store_last. simpl.
  rewrite (wrap_small (num_of_dependencies hx + 1)) by (rewrite SIZE_MOD_eq; lia).
  unfold linked, with_dependency, load, store, set_heap. simpl.
  destruct (decide (x = y)) as [->|Hne].
  - rewrite lookup_insert_eq. simpl.
    assert (hy = hx) as -> by congruence.
    rewrite wrap_small by (rewrite SIZE_MOD_eq; lia). done.
  - rewrite lookup_insert_ne, Hy by done. simpl.
    rewrite wrap_small by (rewrite SIZE_MOD_eq; lia). done.
Qed.

(** C2: when the grow step of [add_dependency] on two live handles gets
    [NULL] from the allocator, the call returns [RCUTILS_RET_ERROR] and the
    heap is the heap before the call: the record of the dependent (its
    array, its length) and the record of the dependency (its count) are
    what they were, and nothing was added to the trace. *)
Theorem add_dependency_allocation_failure
    (s : state) (dependent dependency : Z) (hx hy : rclpy_handle_t) :
  live s dependent hx → live s dependency hy →
  (grow hx s).1 = None →
  ∃ s',
    add_dependency dependent dependency s = Done (RCUTILS_RET_ERROR, s')
    ∧ heap s' = heap s
    ∧ heap s' !! dependent = Some hx
    ∧ heap s' !! dependency = Some hy
    ∧ trace s' = trace s.
Proof.
  intros (Hx & Hhx & _) (Hy & Hhy & _) Hgrow.
  rewrite (add_dependency_unfold _ _ s hx) by done. rewrite Hgrow.
  destruct (reallocate_frame (dependencies hx)
              (wrap (wrap (num_of_dependencies hx + 1) * SIZEOF_PTR)) s) as [Hheap Htrace].
  fold (grow hx s) in Hheap, Htrace.
  eexists. split; [reflexivity|]. rewrite Hheap. done.
Qed.

(** Conversely, the call reports an error only when the grow step got
    [NULL]. *)
Lemma add_dependency_error_only_from_grow s x y hx s' :
  x ≠ NULL → y ≠ NULL → heap s !! x = Some hx →
  add_dependency x y s = Done (RCUTILS_RET_ERROR, s') → (grow hx s).1 = None.
Proof.
  intros Hx Hy Hhx. rewrite (add_dependency_unfold _ _ s hx) by done.
  destruct ((grow hx s).1) as [arr|]; [|done].
  destruct (array_store _ _ _); simpl; try done.
  destruct (load _ _); simpl; done.
Qed.

Lemma counted_heap_eq refs s s' : heap s' = heap s → counted refs s → counted refs s'.
Proof.
  intros Heq (H0 & Hv & Hc). unfold counted, rcount, incoming. rewrite Heq.
  repeat split; try done.
Qed.

Lemma wf_heap_eq owners s s' : heap s' = heap s → wf owners s → wf owners s'.
Proof.
  intros Heq (Hc & Hnd & Hl & Hu). unfold wf, used.
  split; [by apply (counted_heap_eq owners s)|]. by rewrite Heq.
Qed.

Lemma msum_linked f x y hx hy s s1 :
  heap s !! x = Some hx → heap s !! y = Some hy →
  let hx' := with_dependency y hx in
  let hy' := if decide (x = y) then hx' else hy in
  msum f (heap (linked x y hx hy s s1))
  = msum f (heap s) - f hx + f hx' - f hy' + f (set_ref_count (ref_count hy + 1) hy').
Proof.
  intros Hx Hy. unfold linked. simpl.
  rewrite (msum_update f _ y _ (if decide (x = y) then with_dependency y hx else hy)).
  - rewrite (msum_update f _ x _ hx) by done. lia.
  - destruct (decide (x = y)) as [->|Hne].
    + by rewrite lookup_insert_eq.
    + by rewrite lookup_insert_ne.
Qed.

Lemma wf_linked owners s s1 x y hx hy :
  wf owners s → heap s !! x = Some hx → heap s !! y = Some hy →
  used s + SIZEOF_PTR ≤ SIZE_MOD →
  wf owners (linked x y hx hy s s1).
Proof.
  intros Hwf Hx Hy Hcap.
  pose proof (wf_live _ _ _ _ Hwf Hx) as (Hxn & _ & Hvx & Hx1).
  pose proof (wf_live _ _ _ _ Hwf Hy) as (Hyn & _ & Hvy & Hy1).
  pose proof (wf_count_bound _ _ _ _ Hwf Hy) as [_ Hy2].
  pose proof (used_ge_handle s x hx Hx) as Hused.
  assert (hy = hx ∨ x ≠ y) as Hxy.
  { destruct (decide (x = y)) as [->|]; [left; congruence|by right]. }
  destruct Hwf as ((Hnull & Hvalid & Hcount) & Hnd & Hlive & _).
  apply handle_valid_spec in Hvx as (Hrx & Hnum & Hnumlt & Hcx & Hpx & Hdx).
  apply handle_valid_spec in Hvy as (Hry & Hnumy & Hnumlty & Hcy & Hpy & Hdy).
  unfold handle_bytes, SIZEOF_HANDLE, SIZEOF_PTR in Hused, Hy2, Hcap.
  rewrite SIZE_MOD_eq in Hy2, Hcap, Hrx, Hry, Hnumlt, Hnumlty.
  assert (handle_valid (with_dependency y hx) = true) as Hvx'.
  { apply handle_valid_spec. unfold with_dependency, deps_list in *. simpl.
    rewrite length_app, SIZE_MOD_eq. simpl. repeat split; try done; try lia.
    unfold dependencies_consistent. simpl.
    destruct (num_of_dependencies hx + 1 =? 0) eqn:E; [apply Z.eqb_eq in E; lia|done]. }
  assert (∀ h, handle_valid h = true → ref_count h = ref_count hy →
               handle_valid (set_ref_count (ref_count hy + 1) h) = true) as Hbump.
  { intros h Hh Hrc. apply handle_valid_spec in Hh as (? & ? & ? & ? & ? & ?).
    apply handle_valid_spec. unfold set_ref_count, deps_list in *. simpl.
    rewrite SIZE_MOD_eq. repeat split; try done; lia. }
  repeat split.
  - unfold linked. simpl. by rewrite !lookup_insert_ne.
  - intros a h. unfold linked. simpl.
    destruct (decide (a = y)) as [->|Hay].
    + rewrite lookup_insert_eq. intros [= <-]. apply Hbump.
      * destruct (decide (x = y)); [done|]. apply handle_valid_spec. done.
      * destruct (decide (x = y)) as [->|]; [|done]. simpl. congruence.
    + rewrite lookup_insert_ne by done.
      destruct (decide (a = x)) as [->|Hax].
      * rewrite lookup_insert_eq. by intros [= <-].
      * rewrite lookup_insert_ne by done. apply Hvalid.
  - intros a. unfold incoming. rewrite (msum_linked _ x y hx hy s s1 Hx Hy).
    fold (incoming s a). specialize (Hcount a).
    assert (out_edges a (with_dependency y hx)
            = out_edges a hx + (if bool_decide (y = a) then 1 else 0)) as ->.
    { unfold out_edges, with_dependency, deps_list. simpl.
      destruct (ref_count hx =? 0) eqn:E; [apply Z.eqb_eq in E; lia|].
      rewrite occ_app. simpl. lia. }
    assert (∀ h, ref_count h = ref_count hy →
                 out_edges a (set_ref_count (ref_count hy + 1) h) = out_edges a h) as ->.
    { intros h Hrc. unfold out_edges, set_ref_count, deps_list. simpl. rewrite Hrc.
      destruct (ref_count hy =? 0) eqn:E; [apply Z.eqb_eq in E; lia|].
      destruct (ref_count hy + 1 =? 0) eqn:E'; [apply Z.eqb_eq in E'; lia|]. done. }
    2:{ destruct (decide (x = y)) as [->|]; [|done]. simpl. congruence. }
    unfold rcount in *. unfold linked. simpl.
    destruct (decide (a = y)) as [->|Hay].
    + rewrite lookup_insert_eq. simpl. rewrite Hy in Hcount.
      rewrite bool_decide_eq_true_2 by done. lia.
    + rewrite lookup_insert_ne by done.
      rewrite bool_decide_eq_false_2 by done.
      destruct (decide (a = x)) as [->|Hax].
      * rewrite lookup_insert_eq. simpl. rewrite Hx in Hcount. lia.
      * rewrite lookup_insert_ne by done. lia.
  - done.
  - intros a h. unfold linked. simpl.
    destruct (decide (a = y)) as [->|Hay].
    + rewrite lookup_insert_eq. intros [= <-]. simpl. lia.
    + rewrite lookup_insert_ne by done.
      destruct (decide (a = x)) as [->|Hax].
      * rewrite lookup_insert_eq. intros [= <-]. simpl. lia.
      * rewrite lookup_insert_ne by done. apply Hlive.
  - unfold used. rewrite (msum_linked _ x y hx hy s s1 Hx Hy). fold (used s).
    assert (∀ h, handle_bytes (set_ref_count (ref_count hy + 1) h) = handle_bytes h) as ->
      by done.
    unfold handle_bytes at 2, with_dependency, deps_list. simpl.
    rewrite length_app. simpl. fold (deps_list hx).
    unfold handle_bytes. unfold SIZEOF_HANDLE, SIZEOF_PTR. rewrite SIZE_MOD_eq. lia.
Qed.

(** [add_dependency] keeps a state well formed. *)
Lemma wf_add_dependency owners s x y hx hy r s' :
  wf owners s → heap s !! x = Some hx → heap s !! y = Some hy →
  add_dependency x y s = Done (r, s') → wf owners s'.
Proof.
  intros Hwf Hx Hy. rewrite (add_dependency_wf_spec owners s x y hx hy) by done.
  pose proof (next_answer_frame s) as [Hh _].
  destruct (_ && _) eqn:Hok; intros [= <- <-].
  - apply wf_linked; try done.
    apply andb_true_iff in Hok as [_ Hcap]. by apply Z.leb_le.
  - by apply (wf_heap_eq owners s).
Qed.

(** ** Well-formed states: the empty heap and [create] *)

Lemma wf_initial script : wf [] (initial_state script).
Proof.
  split; [|split; [constructor|split; [done|]]].
  - split; [done|]. split; [done|]. intros a.
    unfold rcount, incoming. simpl. rewrite lookup_empty, msum_empty. done.
  - unfold used. simpl. rewrite msum_empty. rewrite SIZE_MOD_eq. lia.
Qed.

Lemma wf_create owners s r d H s' :
  wf owners s → r ≠ NULL → d ≠ NULL →
  create r d s = Done (H, s') →
  wf (if H =? NULL then owners else H :: owners) s'.
Proof.
  intros Hwf Hr Hd. rewrite create_unfold by done.
  destruct ((zero_allocate s).1 =? NULL) eqn:Hz; intros [= <- <-].
  - simpl. apply Z.eqb_eq in Hz. apply (wf_heap_eq owners s); [|done].
    by apply zero_allocate_null.
  - rewrite Hz. apply Z.eqb_neq in Hz.
    destruct (zero_allocate_ok s Hz) as (Hfresh & _ & _ & Hcap).
    set (H := (zero_allocate s).1) in *.
    destruct Hwf as ((Hnull & Hvalid & Hcount) & Hnd & Hlive & Hused).
    assert (∀ a, incoming (set_heap (<[H := mk_handle r 1 None 0 d]> (heap s))
                                    (zero_allocate s).2) a = incoming s a) as Hinc.
    { intros a. unfold incoming. simpl. rewrite msum_insert by done. done. }
    repeat split; simpl.
    + by rewrite lookup_insert_ne.
    + intros a h. destruct (decide (a = H)) as [->|Ha].
      * rewrite lookup_insert_eq. intros [= <-]. apply handle_valid_spec.
        simpl. rewrite SIZE_MOD_eq. repeat split; try done; lia.
      * rewrite lookup_insert_ne by done. apply Hvalid.
    + intros a. rewrite Hinc. specialize (Hcount a). unfold rcount in *. simpl.
      destruct (decide (a = H)) as [->|Ha].
      * rewrite lookup_insert_eq. simpl. rewrite Hfresh in Hcount.
        rewrite bool_decide_eq_true_2 by done. lia.
      * rewrite lookup_insert_ne by done.
        rewrite bool_decide_eq_false_2 by done. lia.
    + constructor; [|done]. intros Hin. apply occ_pos_elem in Hin.
      specialize (Hcount H). unfold rcount in Hcount. rewrite Hfresh in Hcount.
      pose proof (incoming_nonneg s H). lia.
    + intros a h. destruct (decide (a = H)) as [->|Ha].
      * rewrite lookup_insert_eq. by intros [= <-].
      * rewrite lookup_insert_ne by done. apply Hlive.
    + unfold used. simpl. rewrite msum_insert by done. fold (used s).
      unfold handle_bytes at 1. simpl. unfold SIZEOF_HANDLE, SIZEOF_PTR in *. lia.
Qed.

(** C4: in a well-formed state, [add_dependency] on two handles of the heap
    always returns, with [RCUTILS_RET_OK] exactly when the grow step got
    memory.  When it returns [RCUTILS_RET_OK] the count of the
    dependency is one more than before and the array of the dependent is
    the old array followed by the dependency, its recorded length one more;
    no other record changes.  When it returns [RCUTILS_RET_ERROR] the heap
    is unchanged: neither effect has happened. *)
Theorem add_dependency_effect
    (owners : list Z) (s : state) (dependent dependency : Z)
    (hx hy : rclpy_handle_t) :
  wf owners s →
  heap s !! dependent = Some hx → heap s !! dependency = Some hy →
  ∃ r s',
    add_dependency dependent dependency s = Done (r, s')
    ∧ (r = RCUTILS_RET_OK ↔ (grow hx s).1 ≠ None)
    ∧ trace s' = trace s
    ∧ match r with
      | RCUTILS_RET_OK =>
          rcount s' dependency = ref_count hy + 1
          ∧ (∃ hx', heap s' !! dependent = Some hx'
                    ∧ deps_list hx' = deps_list hx ++ [dependency]
                    ∧ last (deps_list hx') = Some dependency
                    ∧ length (deps_list hx') = S (length (deps_list hx))
                    ∧ num_of_dependencies hx' = num_of_dependencies hx + 1)
          ∧ heap s' =
              <[dependency := set_ref_count (ref_count hy + 1)
                                (if decide (dependent = dependency)
                                 then with_dependency dependency hx else hy)]>
                (<[dependent := with_dependency dependency hx]> (heap s))
      | RCUTILS_RET_ERROR => heap s' = heap s
      end.
Proof.
  intros Hwf Hx Hy.
  rewrite (add_dependency_wf_spec owners s _ _ hx hy) by done.
  rewrite (grow_spec owners s dependent hx) by done. simpl.
  pose proof (next_answer_frame s) as [Hh Ht].
  destruct (_ && _); eexists _, _; (split; [reflexivity|]);
    (split; [done|]); (split; [done|]); [|done].
  split; [|split; [|done]].
  - unfold rcount, linked. simpl. by rewrite lookup_insert_eq.
  - unfold linked. simpl. destruct (decide (dependent = dependency)) as [->|Hne].
    + eexists. rewrite lookup_insert_eq. split; [done|].
      change (deps_list (set_ref_count (ref_count hy + 1)
                           (with_dependency dependency hx)))
        with (deps_list hx ++ [dependency]).
      rewrite last_snoc, length_app. simpl. repeat split; try done. lia.
    + eexists. rewrite lookup_insert_ne, lookup_insert_eq by done. split; [done|].
      change (deps_list (with_dependency dependency hx))
        with (deps_list hx ++ [dependency]).
      rewrite last_snoc, length_app. simpl. repeat split; try done. lia.
Qed.

(** ** Release: fuel and frame *)

Lemma dec_ref_unfold fuel a s h :
  a ≠ NULL → heap s !! a = Some h → dependencies_consistent h = true →
  release (S fuel) a s =
    let count := wrap (ref_count h - 1) in
    let s1 := store a (set_ref_count count h) s in
    if count =? 0 then
      s3 ← dec_ref_loop fuel a 0
             (if destructor h =? NULL then s1
              else emit (EvDestructor a (destructor h) (ptr h)) s1);
      Done (deallocate_handle a (deallocate_dependencies a s3))
    else Done s1.
Proof.
  intros Ha Hh Hc. simpl.
  rewrite (eqb_NULL_false a Ha), (load_Some s a h Hh). simpl. rewrite Hc. done.
Qed.

Lemma fuel_mono fuel :
  (∀ fuel' a s s', (fuel ≤ fuel')%nat →
     release fuel a s = Done s' → release fuel' a s = Done s')
  ∧ (∀ fuel' a i s s', (fuel ≤ fuel')%nat →
     dec_ref_loop fuel a i s = Done s' → dec_ref_loop fuel' a i s = Done s').
Proof.
  induction fuel as [|fuel [IHr IHl]]; (split; [intros fuel' a s s' Hle|intros fuel' a i s s' Hle]);
    try (simpl; discriminate);
    (destruct fuel' as [|fuel']; [lia|]); simpl.
  - destruct (a =? NULL); [done|].
    destruct (load s a) as [h| |]; simpl; try done.
    destruct (assert _); simpl; try done.
    destruct (wrap _ =? 0); [|done].
    destruct (dec_ref_loop fuel a 0 _) as [s3| |] eqn:E; simpl; try done.
    rewrite (IHl fuel' _ _ _ _ ltac:(lia) E). done.
  - destruct (load s a) as [h| |]; simpl; try done.
    destruct (i <? _); [|done].
    destruct (dependencies h) as [arr|]; [|done].
    destruct (arr !! _) as [d|]; [|done].
    destruct (_rclpy_handle_dec_ref fuel d s) as [s1| |] eqn:E; simpl; try done.
    rewrite (IHr fuel' _ _ _ ltac:(lia) E). simpl. apply IHl. lia.
Qed.

Lemma bind_Done {A B} (a : A) (k : A → result B) : (Done a ≫= k) = k a.
Proof. done. Qed.

Lemma release_all_cons fuel d ds s :
  release_all fuel (d :: ds) s = (release fuel d s ≫= release_all fuel ds).
Proof. done. Qed.

Lemma release_all_mono fuel fuel' ds s s' :
  (fuel ≤ fuel')%nat →
  release_all fuel ds s = Done s' → release_all fuel' ds s = Done s'.
Proof.
  intros Hle. revert s. induction ds as [|d ds IH]; intros s; simpl; [done|].
  destruct (_rclpy_handle_dec_ref fuel d s) as [s1| |] eqn:E; simpl; try done.
  destruct (fuel_mono fuel) as [Hr _]. rewrite (Hr fuel' _ _ _ Hle E). simpl. apply IH.
Qed.

Lemma shrinks_refl s : shrinks s s.
Proof.
  split; [done|]. split; [exists []; by rewrite app_nil_r|].
  intros a h' Ha. exists h'. split; [done|]. by destruct h'.
Qed.

Lemma shrinks_trans s1 s2 s3 : shrinks s1 s2 → shrinks s2 s3 → shrinks s1 s3.
Proof.
  intros (Ha1 & [t1 Ht1] & Hh1) (Ha2 & [t2 Ht2] & Hh2).
  split; [congruence|]. split.
  - exists (t1 ++ t2). rewrite Ht2, Ht1. by rewrite app_assoc.
  - intros a h3 H3. destruct (Hh2 a h3 H3) as (h2 & H2 & E2).
    destruct (Hh1 a h2 H2) as (h1 & H1 & E1).
    exists h1. split; [done|]. rewrite E2, E1. done.
Qed.

Lemma shrinks_store s a h v :
  heap s !! a = Some h → shrinks s (store a (set_ref_count v h) s).
Proof.
  intros Ha. split; [done|]. split; [exists []; by rewrite app_nil_r|].
  intros b h'. unfold store. simpl. destruct (decide (b = a)) as [->|Hb].
  - rewrite lookup_insert_eq. intros [= <-]. exists h. done.
  - rewrite lookup_insert_ne by done. intros Hb'. exists h'. split; [done|]. by destruct h'.
Qed.

Lemma shrinks_emit s e : shrinks s (emit e s).
Proof.
  split; [done|]. split; [by exists [e]|].
  intros a h' Ha. exists h'. split; [done|]. by destruct h'.
Qed.

Lemma shrinks_deallocate s a :
  shrinks s (deallocate_handle a (deallocate_dependencies a s)).
Proof.
  split; [done|]. split.
  - exists [EvFreeDependencies a; EvFreeHandle a]. simpl. by rewrite <- app_assoc.
  - intros b h'. simpl. intros Hb. apply lookup_delete_Some in Hb as [_ Hb].
    exists h'. split; [done|]. by destruct h'.
Qed.

Lemma release_shrinks fuel :
  (∀ a s s', release fuel a s = Done s' → shrinks s s')
  ∧ (∀ a i s s', dec_ref_loop fuel a i s = Done s' → shrinks s s').
Proof.
  induction fuel as [|fuel [IHr IHl]]; (split; [intros a s s'|intros a i s s']);
    try (simpl; discriminate); simpl.
  - destruct (a =? NULL); [intros [= <-]; apply shrinks_refl|].
    unfold load. destruct (heap s !! a) as [h|] eqn:Hh; simpl; try done.
    destruct (assert _); simpl; try done.
    pose proof (shrinks_store s a h (wrap (ref_count h - 1)) Hh) as Hs1.
    destruct (wrap _ =? 0); [|by intros [= <-]].
    destruct (dec_ref_loop fuel a 0 _) as [s3| |] eqn:E; simpl; try done.
    intros [= <-]. apply IHl in E.
    eapply shrinks_trans; [|apply shrinks_deallocate].
    eapply shrinks_trans; [|apply E].
    destruct (destructor h =? NULL); [done|].
    eapply shrinks_trans; [apply Hs1|apply shrinks_emit].
  - destruct (load s a) as [h| |]; simpl; try done.
    destruct (i <? _); [|intros [= <-]; apply shrinks_refl].
    destruct (dependencies h) as [arr|]; [|done].
    destruct (arr !! _) as [d|]; [|done].
    destruct (_rclpy_handle_dec_ref fuel d s) as [s1| |] eqn:E; simpl; try done.
    intros E'. eapply shrinks_trans; [apply (IHr _ _ _ E)|apply (IHl _ _ _ _ E')].
Qed.

(** ** Release: the counting invariant *)

Lemma released_refl s : released s s.
Proof.
  split; [apply shrinks_refl|]. split; [done|]. split; [done|].
  exists []. by rewrite app_nil_r.
Qed.

Lemma released_rcount s s' x : released s s' → rcount s' x ≠ 0 → rcount s x ≠ 0.
Proof.
  intros ((_ & _ & Hsub) & Hkeep & _) Hx. unfold rcount in *.
  destruct (heap s' !! x) as [h'|] eqn:Hh'; [|done].
  destruct (Hsub x h' Hh') as (h & Hh & _). rewrite Hh.
  intros Hz. rewrite (Hkeep x h Hh Hz) in Hh'. congruence.
Qed.

Lemma released_trans s1 s2 s3 : released s1 s2 → released s2 s3 → released s1 s3.
Proof.
  intros H12 H23.
  pose proof (λ x, released_rcount s1 s2 x H12) as Hrc. revert Hrc.
  destruct H12 as (Hs1 & Hk1 & Hn1 & (t1 & Ht1 & Hf1)).
  destruct H23 as (Hs2 & Hk2 & Hn2 & (t2 & Ht2 & Hf2)). intros Hrc.
  split; [by eapply shrinks_trans|]. split; [eauto|]. split; [eauto|].
  exists (t1 ++ t2). split; [rewrite Ht2, Ht1; by rewrite app_assoc|].
  apply Forall_app. split; [done|].
  eapply Forall_impl; [apply Hf2|]. intros e. apply Hrc.
Qed.

Lemma released_live_count s s' : released s s' → live_count s' ≤ live_count s.
Proof.
  intros ((_ & _ & Hsub) & Hkeep & _). apply msum_le_sub.
  - intros x. unfold live_weight. destruct (_ =? _); lia.
  - intros k h' Hh'. destruct (Hsub k h' Hh') as (h & Hh & _). exists h. split; [done|].
    unfold live_weight. destruct (ref_count h =? 0) eqn:E.
    + apply Z.eqb_eq in E. rewrite (Hkeep k h Hh E) in Hh'.
      injection Hh' as <-. by rewrite E.
    + destruct (ref_count h' =? 0); lia.
Qed.

Lemma live_count_pos s a h : heap s !! a = Some h → ref_count h ≠ 0 → 1 ≤ live_count s.
Proof.
  intros Ha Hrc. unfold live_count. rewrite (msum_delete _ _ _ _ Ha).
  assert (0 ≤ msum live_weight (delete a (heap s))).
  { apply msum_nonneg. intros x. unfold live_weight. destruct (_ =? _); lia. }
  unfold live_weight at 1. apply Z.eqb_neq in Hrc. rewrite Hrc. lia.
Qed.

Lemma counted_head a refs s :
  counted (a :: refs) s →
  ∃ h, heap s !! a = Some h ∧ a ≠ NULL ∧ handle_valid h = true
       ∧ ref_count h = 1 + occ a refs + incoming s a.
Proof.
  intros (Hnull & Hvalid & Hcount). specialize (Hcount a).
  simpl in Hcount. rewrite bool_decide_eq_true_2 in Hcount by done.
  pose proof (occ_nonneg a refs). pose proof (incoming_nonneg s a).
  unfold rcount in Hcount. destruct (heap s !! a) as [h|] eqn:Hh; [|lia].
  exists h. repeat split; eauto. intros ->. congruence.
Qed.

Lemma incoming_store s a h h' x :
  heap s !! a = Some h →
  incoming (store a h' s) x = incoming s x - out_edges x h + out_edges x h'.
Proof. intros Ha. unfold incoming, store. simpl. by apply msum_update. Qed.

Lemma rcount_store s a h x :
  rcount (store a h s) x = if decide (x = a) then ref_count h else rcount s x.
Proof.
  unfold rcount, store. simpl. destruct (decide (x = a)) as [->|Hx].
  - by rewrite lookup_insert_eq.
  - by rewrite lookup_insert_ne.
Qed.

Lemma handle_valid_set_ref_count h v :
  handle_valid h = true → 0 ≤ v < SIZE_MOD → handle_valid (set_ref_count v h) = true.
Proof.
  intros Hv Hr. apply handle_valid_spec in Hv as (? & ? & ? & ? & ? & ?).
  apply handle_valid_spec.
  change (deps_list (set_ref_count v h)) with (deps_list h).
  change (dependencies_consistent (set_ref_count v h)) with (dependencies_consistent h).
  simpl. repeat split; try done; lia.
Qed.

(** One reference to a handle with other owners is given back. *)
Lemma counted_decrement a refs s h :
  counted (a :: refs) s → heap s !! a = Some h → ref_count h ≠ 1 →
  counted refs (store a (set_ref_count (ref_count h - 1) h) s).
Proof.
  intros Hc Ha Hrc. destruct (counted_head _ _ _ Hc) as (h0 & Ha0 & Hn & Hv & Heq).
  assert (h0 = h) as -> by congruence.
  destruct Hc as (Hnull & Hvalid & Hcount).
  pose proof (occ_nonneg a refs). pose proof (incoming_nonneg s a).
  pose proof Hv as Hv'. apply handle_valid_spec in Hv' as (Hr & _).
  split; [|split].
  - unfold store. simpl. by rewrite lookup_insert_ne.
  - intros b hb. unfold store. simpl. destruct (decide (b = a)) as [->|Hb].
    + rewrite lookup_insert_eq. intros [= <-].
      apply handle_valid_set_ref_count; [done|lia].
    + rewrite lookup_insert_ne by done. apply Hvalid.
  - intros x. rewrite (incoming_store s a h _ x Ha), rcount_store.
    assert (out_edges x (set_ref_count (ref_count h - 1) h) = out_edges x h) as ->.
    { unfold out_edges. simpl.
      destruct (ref_count h =? 0) eqn:E1; [apply Z.eqb_eq in E1; lia|].
      destruct (ref_count h - 1 =? 0) eqn:E2; [apply Z.eqb_eq in E2; lia|]. done. }
    specialize (Hcount x). simpl in Hcount.
    destruct (decide (x = a)) as [->|Hx].
    + simpl. lia.
    + rewrite bool_decide_eq_false_2 in Hcount by done. lia.
Qed.

(** The last reference is given back: the handle starts its teardown and
    its slots become references held by the release in progress. *)
Lemma counted_teardown a refs s h :
  counted (a :: refs) s → heap s !! a = Some h → ref_count h = 1 →
  counted (deps_list h ++ refs) (store a (set_ref_count 0 h) s).
Proof.
  intros Hc Ha Hrc. destruct (counted_head _ _ _ Hc) as (h0 & Ha0 & Hn & Hv & Heq).
  assert (h0 = h) as -> by congruence.
  destruct Hc as (Hnull & Hvalid & Hcount).
  pose proof (occ_nonneg a refs). pose proof (incoming_nonneg s a).
  split; [|split].
  - unfold store. simpl. by rewrite lookup_insert_ne.
  - intros b hb. unfold store. simpl. destruct (decide (b = a)) as [->|Hb].
    + rewrite lookup_insert_eq. intros [= <-].
      apply handle_valid_set_ref_count; [done|rewrite SIZE_MOD_eq; lia].
    + rewrite lookup_insert_ne by done. apply Hvalid.
  - intros x. rewrite (incoming_store s a h _ x Ha), rcount_store, occ_app.
    assert (out_edges x (set_ref_count 0 h) = 0) as -> by done.
    assert (out_edges x h = occ x (deps_list h)) as ->.
    { unfold out_edges. rewrite Hrc. done. }
    specialize (Hcount x). simpl in Hcount.
    destruct (decide (x = a)) as [->|Hx].
    + simpl. lia.
    + rewrite bool_decide_eq_false_2 in Hcount by done. lia.
Qed.

Lemma counted_deallocate a refs s h :
  counted refs s → heap s !! a = Some h → ref_count h = 0 →
  counted refs (deallocate_handle a (deallocate_dependencies a s)).
Proof.
  intros (Hnull & Hvalid & Hcount) Ha Hrc.
  split; [|split]; simpl.
  - apply lookup_delete_None. by right.
  - intros b hb Hb. apply lookup_delete_Some in Hb as [_ Hb]. eauto.
  - intros x. specialize (Hcount x). unfold incoming in *. simpl.
    rewrite (msum_delete _ _ _ _ Ha) in Hcount.
    assert (out_edges x h = 0) as Hz by (unfold out_edges; by rewrite Hrc).
    unfold rcount in *. simpl. destruct (decide (x = a)) as [->|Hx].
    + rewrite lookup_delete_eq. rewrite Ha in Hcount. lia.
    + rewrite lookup_delete_ne by done. lia.
Qed.

(** The loop of the teardown of [a], whose record [h] has count zero,
    from slot [length pre] on: it releases the remaining slots [rest] one
    after the other. *)
Lemma loop_counted n a h :
  release_ok n →
  ∀ rest pre s refs,
    heap s !! a = Some h → ref_count h = 0 → handle_valid h = true →
    deps_list h = pre ++ rest →
    live_count s ≤ Z.of_nat n → counted (rest ++ refs) s →
    ∃ fuel s',
      dec_ref_loop fuel a (Z.of_nat (length pre)) s = Done s'
      ∧ release_all fuel rest s = Done s'
      ∧ counted refs s' ∧ released s s'.
Proof.
  intros Hok rest. induction rest as [|d rest IH]; intros pre s refs Ha Hz Hv Hdeps Hn Hc;
    pose proof Hv as Hv'; apply handle_valid_spec in Hv' as (_ & Hnum & Hlt & _).
  - exists 1%nat, s. simpl. rewrite (load_Some s a h Ha). simpl.
    rewrite app_nil_r in Hdeps. rewrite Hnum, Hdeps, Z.ltb_irrefl.
    split; [done|]. split; [done|]. split; [done|apply released_refl].
  - destruct (Hok s (rest ++ refs) d Hn Hc) as (f1 & s1 & Hr1 & Hc1 & Hrel1).
    assert (heap s1 !! a = Some h) as Ha1 by (by apply Hrel1).
    pose proof (released_live_count _ _ Hrel1) as Hn1.
    destruct (IH (pre ++ [d]) s1 refs Ha1 Hz Hv) as (f2 & s2 & Hl2 & Hall2 & Hc2 & Hrel2);
      [by rewrite <- app_assoc|lia|done|].
    exists (S (Nat.max f1 f2)), s2.
    destruct (fuel_mono f1) as [Hm1 _]. destruct (fuel_mono f2) as [_ Hm2].
    split; [|split; [|split; [done|by eapply released_trans]]].
    + assert (Z.of_nat (length pre) < num_of_dependencies h) as Hi.
      { rewrite Hnum, Hdeps, length_app. simpl. lia. }
      simpl. rewrite (load_Some s a h Ha). simpl.
      assert ((Z.of_nat (length pre) <? num_of_dependencies h) = true) as ->
        by (by apply Z.ltb_lt).
      unfold deps_list in Hdeps. destruct (dependencies h) as [arr|]; [|by destruct pre].
      rewrite Nat2Z.id, Hdeps, list_lookup_middle by done.
      rewrite (Hm1 (Nat.max f1 f2) _ _ _ ltac:(lia) Hr1). simpl.
      rewrite wrap_small by lia.
      apply Hm2; [lia|]. rewrite length_app in Hl2. simpl in Hl2.
      by replace (Z.of_nat (length pre) + 1) with (Z.of_nat (length pre + 1)) by lia.
    + rewrite release_all_cons, (Hm1 (S (Nat.max f1 f2)) _ _ _ ltac:(lia) Hr1).
      rewrite bind_Done. eapply release_all_mono; [|apply Hall2]. lia.
Qed.

(** The release of the last reference to [a]: the destructor call, the
    release of the slots in order, the two deallocations. *)
Lemma release_last m a refs s h :
  release_ok m → live_count s ≤ Z.of_nat (S m) →
  counted (a :: refs) s → heap s !! a = Some h → ref_count h = 1 →
  let s2 := emit (EvDestructor a (destructor h) (ptr h))
              (store a (set_ref_count 0 h) s) in
  ∃ fuel s3,
    release_all fuel (deps_list h) s2 = Done s3
    ∧ release (S fuel) a s = Done (deallocate_handle a (deallocate_dependencies a s3))
    ∧ counted refs s3 ∧ released s2 s3
    ∧ heap s3 !! a = Some (set_ref_count 0 h).
Proof.
  intros Hok Hn Hc Ha Hrc s2.
  destruct (counted_head _ _ _ Hc) as (h0 & Ha0 & Hnull & Hv & _).
  assert (h0 = h) as -> by congruence.
  pose proof Hv as Hv'. apply handle_valid_spec in Hv' as (_ & _ & _ & Hcons & _ & Hd).
  assert (heap s2 !! a = Some (set_ref_count 0 h)) as Ha2.
  { unfold s2, store. simpl. by rewrite lookup_insert_eq. }
  assert (counted (deps_list h ++ refs) s2) as Hc2.
  { eapply counted_heap_eq; [|by apply (counted_teardown a refs s h)]. done. }
  assert (live_count s2 = live_count s - 1) as Hlive.
  { unfold live_count, s2, store. simpl. rewrite (msum_update _ _ _ _ h Ha).
    unfold live_weight. simpl. rewrite Hrc. simpl. lia. }
  destruct (loop_counted m a (set_ref_count 0 h) Hok (deps_list h) [] s2 refs)
    as (f & s3 & Hloop & Hall & Hc3 & Hrel3); try done.
  { apply handle_valid_set_ref_count; [done|rewrite SIZE_MOD_eq; lia]. }
  { lia. }
  exists f, s3. split; [done|]. split; [|split; [done|split; [done|]]].
  - rewrite (dec_ref_unfold f a s h) by done. simpl.
    rewrite Hrc. change (wrap (1 - 1) =? 0) with true. simpl.
    rewrite (eqb_NULL_false _ Hd). change (wrap (1 - 1)) with 0.
    fold s2. change (Z.of_nat (length [])) with 0 in Hloop. rewrite Hloop. done.
  - by apply Hrel3.
Qed.

Lemma release_ok_step n : (∀ m, n = S m → release_ok m) → release_ok n.
Proof.
  intros IH s refs a Hn Hc.
  destruct (counted_head _ _ _ Hc) as (h & Ha & Hnull & Hv & Heq).
  pose proof (occ_nonneg a refs). pose proof (incoming_nonneg s a).
  pose proof Hv as Hv'. apply handle_valid_spec in Hv' as (Hr & _ & _ & Hcons & _ & Hd).
  destruct (decide (ref_count h = 1)) as [Hrc|Hrc].
  - pose proof (live_count_pos s a h Ha ltac:(lia)).
    destruct n as [|m]; [lia|]. specialize (IH m eq_refl).
    destruct (release_last m a refs s h IH Hn Hc Ha Hrc)
      as (f & s3 & Hall & Hrel & Hc3 & Hrel3 & Ha3).
    eexists _, _. split; [apply Hrel|]. split; [by eapply counted_deallocate|].
    destruct (release_shrinks (S f)) as [Hshr _]. specialize (Hshr _ _ _ Hrel).
    set (s2 := emit (EvDestructor a (destructor h) (ptr h))
                 (store a (set_ref_count 0 h) s)) in *.
    assert (∀ x, x ≠ a → heap s2 !! x = heap s !! x) as Hother.
    { intros x Hx. unfold s2, store. simpl. by rewrite lookup_insert_ne. }
    destruct Hrel3 as (_ & Hkeep & Hnew & (t & Ht & Hft)).
    split; [done|]. split; [|split].
    + intros x hx Hx Hz. assert (x ≠ a) as Hxa by (intros ->; congruence).
      simpl. rewrite lookup_delete_ne by done. apply Hkeep; [|done].
      by rewrite Hother.
    + intros x hx. simpl. intros Hx Hz. apply lookup_delete_Some in Hx as [Hxa Hx].
      rewrite <- Hother by done. by apply Hnew.
    + exists ([EvDestructor a (destructor h) (ptr h)] ++ t
              ++ [EvFreeDependencies a; EvFreeHandle a]).
      split.
      * simpl. rewrite Ht. unfold s2. simpl. rewrite <- !app_assoc. done.
      * assert (rcount s a ≠ 0) as Hra by (rewrite (rcount_Some s a h Ha); lia).
        apply Forall_app. split; [by repeat constructor|].
        apply Forall_app. split; [|by repeat constructor].
        eapply Forall_impl; [apply Hft|]. intros e. simpl.
        unfold rcount. destruct (decide (ev_handle e = a)) as [->|Hea].
        -- assert (heap s2 !! a = Some (set_ref_count 0 h)) as ->; [|done].
           unfold s2, store. simpl. by rewrite lookup_insert_eq.
        -- by rewrite Hother.
  - exists 1%nat, (store a (set_ref_count (ref_count h - 1) h) s).
    split; [|split; [by apply counted_decrement|]].
    + rewrite (dec_ref_unfold 0 a s h) by done. simpl.
      rewrite wrap_small by lia.
      destruct (ref_count h - 1 =? 0) eqn:E; [apply Z.eqb_eq in E; lia|done].
    + split; [by apply shrinks_store|]. split; [|split].
      * intros x hx Hx Hz. assert (x ≠ a) as Hxa by (intros ->; assert (hx = h) by congruence; subst; lia).
        unfold store. simpl. by rewrite lookup_insert_ne.
      * intros x hx. unfold store. simpl. destruct (decide (x = a)) as [->|Hxa].
        -- rewrite lookup_insert_eq. intros [= <-]. simpl. lia.
        -- by rewrite lookup_insert_ne.
      * exists []. split; [by rewrite app_nil_r|done].
Qed.

(** Every release of an outstanding reference returns and keeps the
    counting invariant. *)
Lemma release_counted n : release_ok n.
Proof.
  induction n as [|n IH]; apply release_ok_step; intros m Hm; [done|]. by injection Hm as <-.
Qed.

Lemma destructor_calls_none a t :
  Forall (λ e, ev_handle e ≠ a) t → destructor_calls a t = 0%nat.
Proof.
  unfold destructor_calls. induction 1 as [|e t He _ IH]; [done|].
  rewrite filter_cons. destruct e; simpl in *; try done.
  rewrite bool_decide_eq_false_2 by done. by case_decide.
Qed.

Lemma destructor_calls_app a t1 t2 :
  destructor_calls a (t1 ++ t2) = (destructor_calls a t1 + destructor_calls a t2)%nat.
Proof. unfold destructor_calls. by rewrite filter_app, length_app. Qed.

(** C1: when [release] takes the last reference to a handle [a] (its
    count is 1, so the decrement drives it to zero), the call returns, and
    it does exactly this, in this order: it calls the destructor of [a] on
    its resource; then, starting from the state in which that call is
    already recorded, it releases the entries of the dependencies array
    one after the other in array order; only then it deallocates the array
    and the record.  The events of the releases of the dependencies [t]
    contain nothing about [a], so the destructor of [a] is called exactly
    once, before any of them.  The hypothesis is the counting invariant
    with the released reference among the outstanding ones; it holds for
    the owner's release in a well-formed state and for every nested
    release of a teardown. *)
Theorem release_to_zero (refs : list Z) (s : state) (a : Z) (h : rclpy_handle_t) :
  counted (a :: refs) s → heap s !! a = Some h → ref_count h = 1 →
  let called := EvDestructor a (destructor h) (ptr h) in
  let s1 := emit called (store a (set_ref_count 0 h) s) in
  ∃ fuel0 s2 t,
    let s' := deallocate_handle a (deallocate_dependencies a s2) in
    (∀ fuel, (fuel0 ≤ fuel)%nat →
       release_all fuel (deps_list h) s1 = Done s2
       ∧ release (S fuel) a s = Done s')
    ∧ trace s2 = trace s1 ++ t
    ∧ Forall (λ e, ev_handle e ≠ a) t
    ∧ trace s' = trace s ++ called :: t ++ [EvFreeDependencies a; EvFreeHandle a]
    ∧ destructor_calls a (called :: t ++ [EvFreeDependencies a; EvFreeHandle a]) = 1%nat
    ∧ heap s2 !! a = Some (set_ref_count 0 h)
    ∧ heap s' !! a = None
    ∧ counted refs s'.
Proof.
  intros Hc Ha Hrc called s1.
  destruct (release_last (Z.to_nat (live_count s)) a refs s h) as
    (f & s2 & Hall & Hrel & Hc2 & Hrel2 & Ha2); try done.
  { apply release_counted. }
  { lia. }
  fold called in Hall, Hrel2. fold s1 in Hall, Hrel2.
  destruct Hrel2 as (_ & _ & _ & (t & Ht & Hft)).
  assert (Forall (λ e, ev_handle e ≠ a) t) as Hna.
  { eapply Forall_impl; [apply Hft|]. intros e He Heq. apply He. rewrite Heq.
    unfold rcount, s1, store. simpl. by rewrite lookup_insert_eq. }
  exists f, s2, t. simpl. split; [|split; [done|split; [done|split; [|split; [|split; [done|split]]]]]].
  - intros fuel Hle. split.
    + by apply (release_all_mono f).
    + destruct (fuel_mono (S f)) as [Hm _]. apply (Hm (S fuel)); [lia|done].
  - rewrite Ht. unfold s1. simpl. by rewrite <- !app_assoc.
  - change (called :: t ++ [EvFreeDependencies a; EvFreeHandle a])
      with ([called] ++ t ++ [EvFreeDependencies a; EvFreeHandle a]).
    rewrite !destructor_calls_app, (destructor_calls_none a t Hna).
    unfold destructor_calls, called. simpl. rewrite !filter_cons, filter_nil. simpl.
    rewrite bool_decide_eq_true_2 by done. by case_decide.
  - apply lookup_delete_eq.
  - by eapply counted_deallocate.
Qed.

(** ** Release keeps states well formed *)

Lemma occ_Permutation a l k : l ≡ₚ k → occ a l = occ a k.
Proof. induction 1; simpl; repeat case_bool_decide; lia. Qed.

Lemma wf_Permutation owners owners' s : owners ≡ₚ owners' → wf owners s → wf owners' s.
Proof.
  intros Hp ((Hnull & Hvalid & Hcount) & Hnd & Hrest).
  split; [split; [done|split; [done|]]|split; [by rewrite <- Hp|done]].
  intros a. rewrite <- (occ_Permutation a _ _ Hp). apply Hcount.
Qed.

Lemma shrinks_used s s' : shrinks s s' → used s' ≤ used s.
Proof.
  intros (_ & _ & Hsub). apply msum_le_sub.
  - intros x. unfold handle_bytes, SIZEOF_HANDLE, SIZEOF_PTR. lia.
  - intros k h' Hh'. destruct (Hsub k h' Hh') as (h & Hh & Eq). exists h.
    split; [done|]. rewrite Eq. done.
Qed.

(** The owner's release of a handle: it returns, and the state is well
    formed for the remaining owners. *)
Lemma wf_release owners s a :
  wf (a :: owners) s →
  ∃ fuel s', release fuel a s = Done s' ∧ wf owners s' ∧ released s s'.
Proof.
  intros (Hc & Hnd & Hlive & Hused).
  destruct (release_counted (Z.to_nat (live_count s)) s owners a) as (f & s' & Hr & Hc' & Hrel);
    [lia|done|].
  exists f, s'. split; [done|]. split; [|done].
  split; [done|]. split; [by inversion Hnd|]. split.
  - intros x h' Hx Hz. destruct Hrel as (_ & _ & Hnew & _).
    by apply (Hlive x h'); [apply Hnew|].
  - destruct Hrel as (Hshr & _). pose proof (shrinks_used _ _ Hshr). lia.
Qed.

(** ** The invariant of the assertion *)








(** ** Self-dependency *)

(** C10: [add_dependency(H, H)] is accepted.  In a well-formed state, when
    the grow step gets memory the call returns [RCUTILS_RET_OK]; [H] is
    then the last entry of its own array and its count is one more.  The
    state is still well formed for the same owners (no operation objects
    to the cycle), and the owner's release afterwards only decrements: the
    record stays in the heap, held by its own slot, and no destructor
    runs. *)
Theorem self_dependency_accepted (owners : list Z) (s : state) (H : Z) (h : rclpy_handle_t) :
  wf owners s → heap s !! H = Some h → (grow h s).1 ≠ None →
  ∃ s' h',
    add_dependency H H s = Done (RCUTILS_RET_OK, s')
    ∧ heap s' !! H = Some h'
    ∧ deps_list h' = deps_list h ++ [H]
    ∧ H ∈ deps_list h'
    ∧ num_of_dependencies h' = num_of_dependencies h + 1
    ∧ ref_count h' = ref_count h + 1
    ∧ wf owners s'
    ∧ ∀ fuel, ∃ s'',
        release (S fuel) H s' = Done s''
        ∧ heap s'' !! H = Some (set_ref_count (ref_count h) h')
        ∧ trace s'' = trace s.
Proof.
  intros Hwf Hh Hgrow.
  pose proof (add_dependency_wf_spec owners s H H h h Hwf Hh Hh) as Hspec.
  rewrite (grow_spec owners s H h Hwf Hh) in Hgrow. simpl in Hgrow.
  destruct (_ && _) eqn:Hok; [|done].
  pose proof (wf_add_dependency owners s H H h h _ _ Hwf Hh Hh Hspec) as Hwf'.
  set (s' := linked H H h h s (next_answer s).2) in *.
  set (h' := set_ref_count (ref_count h + 1) (with_dependency H h)).
  assert (heap s' !! H = Some h') as Hh'.
  { unfold s', linked. simpl. rewrite lookup_insert_eq. by rewrite decide_True. }
  exists s', h'. split; [done|]. split; [done|].
  split; [done|]. split.
  { change (deps_list h') with (deps_list h ++ [H]). apply elem_of_app. right. by left. }
  split; [done|]. split; [done|]. split; [done|].
  intros fuel. pose proof (wf_live _ _ _ _ Hwf Hh) as (_ & _ & _ & H1).
  pose proof (wf_live _ _ _ _ Hwf' Hh') as Hl'.
  eexists. split; [apply (dec_ref_shared fuel s' H h' Hl'); simpl; lia|].
  simpl. rewrite lookup_insert_eq. split.
  - do 2 f_equal. lia.
  - apply next_answer_frame.
Qed.

Lemma release_deterministic fuel fuel' a s s1 s2 :
  release fuel a s = Done s1 → release fuel' a s = Done s2 → s1 = s2.
Proof.
  intros H1 H2.
  destruct (fuel_mono fuel) as [Hm1 _]. destruct (fuel_mono fuel') as [Hm2 _].
  pose proof (Hm1 (Nat.max fuel fuel') _ _ _ ltac:(lia) H1) as E1.
  pose proof (Hm2 (Nat.max fuel fuel') _ _ _ ltac:(lia) H2) as E2.
  congruence.
Qed.

(** ** Reachable states *)

(** Every reachable state is well formed. *)
Lemma reachable_wf owners s : reachable owners s → wf owners s.
Proof.
  induction 1 as [script|owners s script _ IH|owners s r d H s' _ IH Hr Hd Hc
                 |owners s x y r s' _ IH [hx Hx] [hy Hy] Ha
                 |owners owners' s a fuel s' _ IH Hp Hr].
  - apply wf_initial.
  - by apply (wf_heap_eq owners s).
  - exact (wf_create owners s r d H s' IH Hr Hd Hc).
  - exact (wf_add_dependency owners s x y hx hy r s' IH Hx Hy Ha).
  - apply (wf_Permutation _ _ _ Hp) in IH.
    destruct (wf_release owners' s a IH) as (f & s0 & Hr0 & Hwf0 & _).
    by rewrite (release_deterministic _ _ _ _ _ _ Hr Hr0).
Qed.

(** From a reachable state the release of an owner's reference returns. *)
Lemma reachable_release_returns owners s a :
  reachable (a :: owners) s →
  ∃ fuel s', release fuel a s = Done s' ∧ reachable owners s'.
Proof.
  intros Hr. destruct (wf_release owners s a (reachable_wf _ _ Hr)) as (f & s' & Hf & _).
  exists f, s'. split; [done|]. by eapply reach_release.
Qed.

(** ** The diamond scenario *)

Lemma diamond0_eq :
  diamond_setup 101 201 102 202 103 203 (initial_state [])
  = Done (1, 2, 3, RCUTILS_RET_OK, RCUTILS_RET_OK, diamond0).
Proof. by vm_compute. Qed.

Lemma diamond1_eq : release 4 1 diamond0 = Done diamond1.
Proof. by vm_compute. Qed.

Lemma diamond2_eq : release 4 2 diamond1 = Done diamond2.
Proof. by vm_compute. Qed.

(** After both releases [C] is still in the heap with count 1 (the
    reference of its creator) and its destructor has not been called. *)
Lemma diamond2_C :
  rcount diamond2 3 = 1 ∧ destructor_calls 3 (trace diamond2) = 0%nat
  ∧ trace diamond2 = [EvDestructor 1 201 101; EvFreeDependencies 1; EvFreeHandle 1;
                      EvDestructor 2 202 102; EvFreeDependencies 2; EvFreeHandle 2].
Proof. by vm_compute. Qed.

(** C3, as stated, fails: with resources 101, 102, 103 and destructors
    201, 202, 203 the release of [B] does not destroy [C]. *)
Lemma diamond_as_stated_fails : ¬ diamond_as_stated 101 201 102 202 103 203.
Proof.
  intros (A & B & C & s0 & fuel & s1 & s2 & Hsetup & Hr1 & _ & _ & Hr2 & _ & HC & _).
  rewrite diamond0_eq in Hsetup. injection Hsetup as <- <- <- <-.
  pose proof (release_deterministic _ _ _ _ _ _ Hr1 diamond1_eq) as ->.
  pose proof (release_deterministic _ _ _ _ _ _ Hr2 diamond2_eq) as ->.
  by vm_compute in HC.
Qed.

Lemma bind_Done_inv {A B} (r : result A) (k : A → result B) b :
  (r ≫= k) = Done b → ∃ a, r = Done a ∧ k a = Done b.
Proof. destruct r as [a| |]; try done. intros Hk. by exists a. Qed.

Lemma create_result r d s H s' :
  r ≠ NULL → d ≠ NULL → create r d s = Done (H, s') → H ≠ NULL →
  heap s !! H = None
  ∧ heap s' = <[H := mk_handle r 1 None 0 d]> (heap s)
  ∧ trace s' = trace s.
Proof.
  intros Hr Hd. rewrite create_unfold by done.
  destruct (_ =? NULL) eqn:Hz; intros [= <- <-] HH; [done|].
  destruct (zero_allocate_ok s HH) as (Hfresh & _ & Htrace & _). done.
Qed.

Lemma add_dependency_result owners s x y hx hy s' :
  wf owners s → heap s !! x = Some hx → heap s !! y = Some hy →
  add_dependency x y s = Done (RCUTILS_RET_OK, s') →
  heap s' = heap (linked x y hx hy s s) ∧ trace s' = trace s.
Proof.
  intros Hwf Hx Hy. rewrite (add_dependency_wf_spec owners s x y hx hy) by done.
  destruct (_ && _); intros [= <-]. split; [done|]. apply next_answer_frame.
Qed.

Lemma wf_release_at owners s a fuel s' :
  wf (a :: owners) s → release fuel a s = Done s' → wf owners s'.
Proof.
  intros Hwf Hr. destruct (wf_release owners s a Hwf) as (f & s0 & Hr0 & Hwf0 & _).
  by rewrite (release_deterministic _ _ _ _ _ _ Hr Hr0).
Qed.

Lemma release_last_reference refs s a h :
  counted (a :: refs) s → heap s !! a = Some h → ref_count h = 1 →
  ∃ fuel s3,
    release_all fuel (deps_list h)
      (emit (EvDestructor a (destructor h) (ptr h)) (store a (set_ref_count 0 h) s))
    = Done s3
    ∧ release (S fuel) a s = Done (deallocate_handle a (deallocate_dependencies a s3)).
Proof.
  intros Hc Ha Hrc.
  destruct (release_last (Z.to_nat (live_count s)) a refs s h) as
    (f & s2 & Hall & Hrel & _); try done; [apply release_counted|lia|].
  by exists f, s2.
Qed.

(** C3, amended: the creator of [C] holds a reference of its own, so after
    the setup the count of [C] is 3.  When that reference is released
    first (which leaves [C] live with count 2), the release of [A] calls
    [D_a] and leaves [C] live with count 1, and the release of [B] then
    calls [D_b], drives the count of [C] to zero and calls [D_c]; each
    destructor is called exactly once, [D_c] after [D_a] and [D_b], and
    the heap is again the heap before the scenario.  This holds from every
    well-formed state and for every address the allocator chooses. *)
Theorem diamond_after_owner_release (owners : list Z) (s : state)
    (ra da rb db rc dc A B C : Z) (s5 : state) :
  wf owners s →
  ra ≠ NULL → da ≠ NULL → rb ≠ NULL → db ≠ NULL → rc ≠ NULL → dc ≠ NULL →
  diamond_setup ra da rb db rc dc s
    = Done (A, B, C, RCUTILS_RET_OK, RCUTILS_RET_OK, s5) →
  A ≠ NULL → B ≠ NULL → C ≠ NULL →
  ∃ fuel0 sc sa sb,
    let ta := [EvDestructor A da ra; EvFreeDependencies A; EvFreeHandle A] in
    let tb := [EvDestructor B db rb;
               EvDestructor C dc rc; EvFreeDependencies C; EvFreeHandle C;
               EvFreeDependencies B; EvFreeHandle B] in
    rcount s5 C = 3
    ∧ (∀ fuel, (fuel0 ≤ fuel)%nat →
         release fuel C s5 = Done sc
         ∧ release fuel A sc = Done sa
         ∧ release fuel B sa = Done sb)
    ∧ trace sc = trace s ∧ rcount sc C = 2
    ∧ trace sa = trace s ++ ta
    ∧ rcount sa C = 1
    ∧ trace sb = trace s ++ ta ++ tb
    ∧ heap sb = heap s
    ∧ destructor_calls A (ta ++ tb) = 1%nat
    ∧ destructor_calls B (ta ++ tb) = 1%nat
    ∧ destructor_calls C (ta ++ tb) = 1%nat
    ∧ before (EvDestructor A da ra) (EvDestructor C dc rc) (ta ++ tb)
    ∧ before (EvDestructor B db rb) (EvDestructor C dc rc) (ta ++ tb).
Proof.
  intros Hwf Hra Hda Hrb Hdb Hrc Hdc Hsetup HA HB HC.
  unfold diamond_setup in Hsetup.
  apply bind_Done_inv in Hsetup as ([A' s1] & E1 & Hsetup).
  apply bind_Done_inv in Hsetup as ([B' s2] & E2 & Hsetup).
  apply bind_Done_inv in Hsetup as ([C' s3] & E3 & Hsetup).
  apply bind_Done_inv in Hsetup as ([r1 s4] & E4 & Hsetup).
  apply bind_Done_inv in Hsetup as ([r2 s5'] & E5 & Hsetup).
  injection Hsetup as -> -> -> -> -> ->.
  (* the three records *)
  destruct (create_result _ _ _ _ _ Hra Hda E1 HA) as (FA & H1 & T1).
  destruct (create_result _ _ _ _ _ Hrb Hdb E2 HB) as (FB & H2 & T2).
  destruct (create_result _ _ _ _ _ Hrc Hdc E3 HC) as (FC & H3 & T3).
  pose proof (wf_create _ _ _ _ _ _ Hwf Hra Hda E1) as W1.
  rewrite (eqb_NULL_false A HA) in W1.
  pose proof (wf_create _ _ _ _ _ _ W1 Hrb Hdb E2) as W2.
  rewrite (eqb_NULL_false B HB) in W2.
  pose proof (wf_create _ _ _ _ _ _ W2 Hrc Hdc E3) as W3.
  rewrite (eqb_NULL_false C HC) in W3.
  assert (B ≠ A) as HBA by (intros ->; rewrite H1, lookup_insert_eq in FB; done).
  assert (heap s !! B = None) as FB0 by (by rewrite H1, lookup_insert_ne in FB).
  assert (C ≠ B) as HCB by (intros ->; rewrite H2, lookup_insert_eq in FC; done).
  assert (C ≠ A) as HCA.
  { intros ->. rewrite H2, lookup_insert_ne, H1, lookup_insert_eq in FC; done. }
  assert (heap s !! C = None) as FC0.
  { by rewrite H2, lookup_insert_ne, H1, lookup_insert_ne in FC. }
  set (hA0 := mk_handle ra 1 None 0 da) in *.
  set (hB0 := mk_handle rb 1 None 0 db) in *.
  set (hC0 := mk_handle rc 1 None 0 dc) in *.
  (* the two edges *)
  assert (heap s3 !! A = Some hA0) as LA3.
  { rewrite H3, lookup_insert_ne, H2, lookup_insert_ne, H1, lookup_insert_eq; done. }
  assert (heap s3 !! C = Some hC0) as LC3 by (by rewrite H3, lookup_insert_eq).
  destruct (add_dependency_result _ _ _ _ _ _ _ W3 LA3 LC3 E4) as (H4 & T4).
  pose proof (wf_add_dependency _ _ _ _ _ _ _ _ W3 LA3 LC3 E4) as W4.
  unfold linked in H4. simpl in H4. rewrite decide_False in H4 by done.
  assert (heap s4 !! B = Some hB0) as LB4.
  { rewrite H4, !lookup_insert_ne, H3, lookup_insert_ne, H2, lookup_insert_eq; done. }
  assert (heap s4 !! C = Some (set_ref_count 2 hC0)) as LC4.
  { by rewrite H4, lookup_insert_eq. }
  destruct (add_dependency_result _ _ _ _ _ _ _ W4 LB4 LC4 E5) as (H5 & T5).
  pose proof (wf_add_dependency _ _ _ _ _ _ _ _ W4 LB4 LC4 E5) as W5.
  unfold linked in H5. simpl in H5. rewrite decide_False in H5 by done.
  change (set_ref_count (1 + 1) hC0) with (mk_handle rc 2 None 0 dc) in H4.
  change (set_ref_count 2 hC0) with (mk_handle rc 2 None 0 dc) in LC4.
  change (set_ref_count (2 + 1) (set_ref_count 2 hC0)) with (mk_handle rc 3 None 0 dc) in H5.
  change (with_dependency C hA0) with (mk_handle ra 1 (Some [C]) 1 da) in H4.
  change (with_dependency C hB0) with (mk_handle rb 1 (Some [C]) 1 db) in H5.
  set (hA := mk_handle ra 1 (Some [C]) 1 da) in *.
  set (hB := mk_handle rb 1 (Some [C]) 1 db) in *.
  assert (trace s5 = trace s) as T by congruence.
  assert (heap s5 !! A = Some hA) as LA5.
  { rewrite H5, !lookup_insert_ne, H4, lookup_insert_ne, lookup_insert_eq; done. }
  assert (heap s5 !! B = Some hB) as LB5.
  { rewrite H5, lookup_insert_ne, lookup_insert_eq; done. }
  assert (heap s5 !! C = Some (mk_handle rc 3 None 0 dc)) as LC5.
  { by rewrite H5, lookup_insert_eq. }
  (* the creator of C releases its reference *)
  pose proof (dec_ref_shared 0 s5 C _ (wf_live _ _ _ _ W5 LC5) ltac:(simpl; lia)) as RC.
  change (set_ref_count _ _) with (mk_handle rc 2 None 0 dc) in RC.
  set (sc := store C (mk_handle rc 2 None 0 dc) s5) in *.
  pose proof (wf_release_at _ _ _ _ _ W5 RC) as Wc.
  assert (heap sc !! A = Some hA) as LAc by (unfold sc, store; simpl; by rewrite lookup_insert_ne).
  assert (heap sc !! B = Some hB) as LBc by (unfold sc, store; simpl; by rewrite lookup_insert_ne).
  assert (heap sc !! C = Some (mk_handle rc 2 None 0 dc)) as LCc.
  { unfold sc, store; simpl; by rewrite lookup_insert_eq. }
  (* release of A *)
  apply (wf_Permutation _ (A :: B :: owners)) in Wc; [|apply Permutation_swap].
  destruct (release_last_reference (B :: owners) sc A hA (proj1 Wc) LAc eq_refl)
    as (fA & s3a & HallA & RA).
  change (deps_list hA) with [C] in HallA.
  rewrite release_all_cons in HallA.
  apply bind_Done_inv in HallA as (x & HxA & HkA). injection HkA as ->.
  set (s2a := emit (EvDestructor A (destructor hA) (ptr hA)) (store A (set_ref_count 0 hA) sc)) in *.
  assert (live s2a C (mk_handle rc 2 None 0 dc)) as LiveCa.
  { destruct (wf_live _ _ _ _ Wc LCc) as (? & _ & ? & ?). repeat split; try done.
    unfold s2a, store. simpl. by rewrite lookup_insert_ne. }
  pose proof (dec_ref_shared 0 s2a C _ LiveCa ltac:(simpl; lia)) as RCa.
  change (set_ref_count _ _) with (mk_handle rc 1 None 0 dc) in RCa.
  rewrite (release_deterministic _ _ _ _ _ _ HxA RCa) in RA. clear HxA s3a.
  set (sa := deallocate_handle A (deallocate_dependencies A
               (store C (mk_handle rc 1 None 0 dc) s2a))) in *.
  pose proof (wf_release_at _ _ _ _ _ Wc RA) as Wa.
  assert (heap sa !! B = Some hB) as LBa.
  { unfold sa, s2a, store. simpl.
    rewrite lookup_delete_ne, !lookup_insert_ne; done. }
  assert (heap sa !! C = Some (mk_handle rc 1 None 0 dc)) as LCa.
  { unfold sa, s2a, store. simpl.
    rewrite lookup_delete_ne, lookup_insert_eq; done. }
  (* release of B, which releases C in turn *)
  destruct (release_last_reference owners sa B hB (proj1 Wa) LBa eq_refl)
    as (fB & s3b & HallB & RB).
  change (deps_list hB) with [C] in HallB.
  rewrite release_all_cons in HallB.
  apply bind_Done_inv in HallB as (x & HxB & HkB). injection HkB as ->.
  set (s2b := emit (EvDestructor B (destructor hB) (ptr hB)) (store B (set_ref_count 0 hB) sa)) in *.
  assert (counted (C :: owners) s2b) as Cb.
  { apply (counted_heap_eq _ (store B (set_ref_count 0 hB) sa)); [done|].
    apply (counted_teardown B owners sa hB (proj1 Wa) LBa eq_refl). }
  assert (heap s2b !! C = Some (mk_handle rc 1 None 0 dc)) as LCb.
  { unfold s2b, store. simpl. by rewrite lookup_insert_ne. }
  destruct (release_last_reference owners s2b C _ Cb LCb eq_refl)
    as (fC & s3c & HallC & RCb).
  injection HallC as <-.
  rewrite (release_deterministic _ _ _ _ _ _ HxB RCb) in RB. clear HxB s3b.
  set (sb := deallocate_handle B (deallocate_dependencies B
               (deallocate_handle C (deallocate_dependencies C
                  (emit (EvDestructor C dc rc)
                     (store C (set_ref_count 0 (mk_handle rc 1 None 0 dc)) s2b)))))) in *.
  exists (Nat.max 1 (Nat.max (S fA) (S fB))), sc, sa, sb. simpl.
  split; [by rewrite (rcount_Some _ _ _ LC5)|].
  split.
  { intros fuel Hle.
    destruct (fuel_mono 1) as [M1 _]. destruct (fuel_mono (S fA)) as [MA _].
    destruct (fuel_mono (S fB)) as [MB _].
    split; [apply (M1 fuel); [lia|done]|].
    split; [apply (MA fuel); [lia|done]|apply (MB fuel); [lia|done]]. }
  split; [done|]. split; [by rewrite (rcount_Some _ _ _ LCc)|].
  split; [simpl; rewrite T; by rewrite <- !app_assoc|].
  split; [by rewrite (rcount_Some _ _ _ LCa)|].
  split; [simpl; rewrite T; by rewrite <- !app_assoc|].
  split.
  { apply map_eq. intros k. unfold sb, s2b, sa, s2a, sc, store. simpl.
    rewrite H5, H4, H3, H2, H1.
    clear -HBA HCB HCA FA FB0 FC0.
    assert (A ≠ B ∧ B ≠ C ∧ A ≠ C) as (? & ? & ?) by (repeat split; congruence).
    destruct (decide (k = A)) as [->|HkA]; [|destruct (decide (k = B)) as [->|HkB];
      [|destruct (decide (k = C)) as [->|HkC]]];
      repeat first [rewrite lookup_delete_eq | rewrite lookup_delete_ne by done
                   | rewrite lookup_insert_eq | rewrite lookup_insert_ne by done];
      done. }
  unfold destructor_calls. rewrite !filter_cons, !filter_nil. simpl.
  rewrite !(bool_decide_eq_true_2 (_ = _)) by done.
  rewrite !(bool_decide_eq_false_2 (A = B)), !(bool_decide_eq_false_2 (A = C)),
    !(bool_decide_eq_false_2 (B = A)), !(bool_decide_eq_false_2 (B = C)),
    !(bool_decide_eq_false_2 (C = A)), !(bool_decide_eq_false_2 (C = B)) by done.
  repeat case_decide; try done.
  split; [done|]. split; [done|]. split; [done|]. split.
  - exists [], [EvFreeDependencies A; EvFreeHandle A; EvDestructor B db rb],
      [EvFreeDependencies C; EvFreeHandle C; EvFreeDependencies B; EvFreeHandle B].
    reflexivity.
  - exists [EvDestructor A da ra; EvFreeDependencies A; EvFreeHandle A], [],
      [EvFreeDependencies C; EvFreeHandle C; EvFreeDependencies B; EvFreeHandle B].
    reflexivity.
Qed.

(** ** Concrete states: their properties, and instances of the theorems *)

Lemma one_handle_eq : create 101 201 (initial_state []) = Done (1, one_handle).
Proof. vm_compute. reflexivity. Qed.

Lemma two_handles_eq : create 103 203 one_handle = Done (2, two_handles).
Proof. vm_compute. reflexivity. Qed.

Lemma edge_state_eq : add_dependency 1 2 two_handles = Done (RCUTILS_RET_OK, edge_state).
Proof. vm_compute. reflexivity. Qed.

Lemma one_handle_wf : wf [1] one_handle.
Proof.
  exact (wf_create [] (initial_state []) 101 201 1 one_handle
           (wf_initial []) ltac:(done) ltac:(done) one_handle_eq).
Qed.

Lemma two_handles_wf : wf [2; 1] two_handles.
Proof.
  exact (wf_create [1] one_handle 103 203 2 two_handles
           one_handle_wf ltac:(done) ltac:(done) two_handles_eq).
Qed.

Lemma edge_state_wf : wf [2; 1] edge_state.
Proof.
  apply (wf_add_dependency [2; 1] two_handles 1 2
           (mk_handle 101 1 None 0 201) (mk_handle 103 1 None 0 203)
           RCUTILS_RET_OK edge_state two_handles_wf); [done|done|apply edge_state_eq].
Qed.

Lemma edge_state_counted : counted [1; 2] edge_state.
Proof.
  apply (wf_Permutation [2; 1] [1; 2] edge_state); [apply Permutation_swap|apply edge_state_wf].
Qed.

Lemma release_to_zero_witness :
  counted [1; 2] edge_state
  ∧ heap edge_state !! 1 = Some (mk_handle 101 1 (Some [2]) 1 201)
  ∧ ref_count (mk_handle 101 1 (Some [2]) 1 201) = 1
  ∧ let called := EvDestructor 1 201 101 in
    let s1 := emit called
                (store 1 (set_ref_count 0 (mk_handle 101 1 (Some [2]) 1 201)) edge_state) in
    ∃ fuel0 s2 t,
      let s' := deallocate_handle 1 (deallocate_dependencies 1 s2) in
      (∀ fuel, (fuel0 ≤ fuel)%nat →
         release_all fuel [2] s1 = Done s2
         ∧ release (S fuel) 1 edge_state = Done s')
      ∧ trace s2 = trace s1 ++ t
      ∧ Forall (λ e, ev_handle e ≠ 1) t
      ∧ trace s' = trace edge_state ++ called :: t ++ [EvFreeDependencies 1; EvFreeHandle 1]
      ∧ destructor_calls 1 (called :: t ++ [EvFreeDependencies 1; EvFreeHandle 1]) = 1%nat
      ∧ heap s2 !! 1 = Some (set_ref_count 0 (mk_handle 101 1 (Some [2]) 1 201))
      ∧ heap s' !! 1 = None
      ∧ counted [2] s'.
Proof.
  split; [apply edge_state_counted|]. split; [reflexivity|]. split; [reflexivity|].
  apply (release_to_zero [2] edge_state 1 (mk_handle 101 1 (Some [2]) 1 201));
    [apply edge_state_counted|reflexivity|reflexivity].
Defined.

Lemma two_handles_live_1 : live two_handles_no_memory 1 (mk_handle 101 1 None 0 201).
Proof. repeat split; try done. Qed.

Lemma two_handles_live_2 : live two_handles_no_memory 2 (mk_handle 103 1 None 0 203).
Proof. repeat split; try done. Qed.

Lemma add_dependency_allocation_failure_witness :
  live two_handles_no_memory 1 (mk_handle 101 1 None 0 201)
  ∧ live two_handles_no_memory 2 (mk_handle 103 1 None 0 203)
  ∧ (grow (mk_handle 101 1 None 0 201) two_handles_no_memory).1 = None
  ∧ ∃ s',
      add_dependency 1 2 two_handles_no_memory = Done (RCUTILS_RET_ERROR, s')
      ∧ heap s' = heap two_handles_no_memory
      ∧ heap s' !! 1 = Some (mk_handle 101 1 None 0 201)
      ∧ heap s' !! 2 = Some (mk_handle 103 1 None 0 203)
      ∧ trace s' = trace two_handles_no_memory.
Proof.
  split; [apply two_handles_live_1|]. split; [apply two_handles_live_2|].
  split; [reflexivity|].
  apply (add_dependency_allocation_failure two_handles_no_memory 1 2
           (mk_handle 101 1 None 0 201) (mk_handle 103 1 None 0 203));
    [apply two_handles_live_1|apply two_handles_live_2|reflexivity].
Defined.

Lemma diamond_after_owner_release_witness :
  wf [] (initial_state [])
  ∧ (101 ≠ NULL ∧ 201 ≠ NULL ∧ 102 ≠ NULL ∧ 202 ≠ NULL ∧ 103 ≠ NULL ∧ 203 ≠ NULL)
  ∧ diamond_setup 101 201 102 202 103 203 (initial_state [])
    = Done (1, 2, 3, RCUTILS_RET_OK, RCUTILS_RET_OK, diamond0)
  ∧ (1 ≠ NULL ∧ 2 ≠ NULL ∧ 3 ≠ NULL)
  ∧ ∃ fuel0 sc sa sb,
      let ta := [EvDestructor 1 201 101; EvFreeDependencies 1; EvFreeHandle 1] in
      let tb := [EvDestructor 2 202 102;
                 EvDestructor 3 203 103; EvFreeDependencies 3; EvFreeHandle 3;
                 EvFreeDependencies 2; EvFreeHandle 2] in
      rcount diamond0 3 = 3
      ∧ (∀ fuel, (fuel0 ≤ fuel)%nat →
           release fuel 3 diamond0 = Done sc
           ∧ release fuel 1 sc = Done sa
           ∧ release fuel 2 sa = Done sb)
      ∧ trace sc = trace (initial_state []) ∧ rcount sc 3 = 2
      ∧ trace sa = trace (initial_state []) ++ ta
      ∧ rcount sa 3 = 1
      ∧ trace sb = trace (initial_state []) ++ ta ++ tb
      ∧ heap sb = heap (initial_state [])
      ∧ destructor_calls 1 (ta ++ tb) = 1%nat
      ∧ destructor_calls 2 (ta ++ tb) = 1%nat
      ∧ destructor_calls 3 (ta ++ tb) = 1%nat
      ∧ before (EvDestructor 1 201 101) (EvDestructor 3 203 103) (ta ++ tb)
      ∧ before (EvDestructor 2 202 102) (EvDestructor 3 203 103) (ta ++ tb).
Proof.
  split; [apply wf_initial|]. split; [repeat split; discriminate|].
  split; [apply diamond0_eq|]. split; [repeat split; discriminate|].
  apply (diamond_after_owner_release [] (initial_state [])
           101 201 102 202 103 203 1 2 3 diamond0);
    [apply wf_initial|discriminate|discriminate|discriminate|discriminate|discriminate
    |discriminate|apply diamond0_eq|discriminate|discriminate|discriminate].
Defined.

Lemma add_dependency_effect_witness :
  wf [2; 1] two_handles
  ∧ heap two_handles !! 1 = Some (mk_handle 101 1 None 0 201)
  ∧ heap two_handles !! 2 = Some (mk_handle 103 1 None 0 203)
  ∧ ∃ r s',
      add_dependency 1 2 two_handles = Done (r, s')
      ∧ (r = RCUTILS_RET_OK ↔ (grow (mk_handle 101 1 None 0 201) two_handles).1 ≠ None)
      ∧ trace s' = trace two_handles
      ∧ match r with
        | RCUTILS_RET_OK =>
            rcount s' 2 = ref_count (mk_handle 103 1 None 0 203) + 1
            ∧ (∃ hx', heap s' !! 1 = Some hx'
                      ∧ deps_list hx' = deps_list (mk_handle 101 1 None 0 201) ++ [2]
                      ∧ last (deps_list hx') = Some 2
                      ∧ length (deps_list hx')
                        = S (length (deps_list (mk_handle 101 1 None 0 201)))
                      ∧ num_of_dependencies hx'
                        = num_of_dependencies (mk_handle 101 1 None 0 201) + 1)
            ∧ heap s' =
                <[2 := set_ref_count (ref_count (mk_handle 103 1 None 0 203) + 1)
                         (if decide (1 = 2)
                          then with_dependency 2 (mk_handle 101 1 None 0 201)
                          else mk_handle 103 1 None 0 203)]>
                  (<[1 := with_dependency 2 (mk_handle 101 1 None 0 201)]> (heap two_handles))
        | RCUTILS_RET_ERROR => heap s' = heap two_handles
        end.
Proof.
  split; [apply two_handles_wf|]. split; [reflexivity|]. split; [reflexivity|].
  apply (add_dependency_effect [2; 1] two_handles 1 2
           (mk_handle 101 1 None 0 201) (mk_handle 103 1 None 0 203));
    [apply two_handles_wf|reflexivity|reflexivity].
Defined.


Lemma edge_state_live_2 : live edge_state 2 (mk_handle 103 2 None 0 203).
Proof. repeat split; try done. Qed.

Lemma release_shared_witness :
  live edge_state 2 (mk_handle 103 2 None 0 203)
  ∧ 2 ≤ ref_count (mk_handle 103 2 None 0 203)
  ∧ ∃ s',
      release 1 2 edge_state = Done s'
      ∧ heap s' = <[2 := set_ref_count (ref_count (mk_handle 103 2 None 0 203) - 1)
                           (mk_handle 103 2 None 0 203)]> (heap edge_state)
      ∧ (∀ b, b ≠ 2 → heap s' !! b = heap edge_state !! b)
      ∧ trace s' = trace edge_state
      ∧ alloc_script s' = alloc_script edge_state.
Proof.
  split; [apply edge_state_live_2|]. split; [simpl; lia|].
  apply (release_shared 0 edge_state 2 (mk_handle 103 2 None 0 203));
    [apply edge_state_live_2|simpl; lia].
Defined.

Lemma self_dependency_accepted_witness :
  wf [1] one_handle
  ∧ heap one_handle !! 1 = Some (mk_handle 101 1 None 0 201)
  ∧ (grow (mk_handle 101 1 None 0 201) one_handle).1 ≠ None
  ∧ ∃ s' h',
      add_dependency 1 1 one_handle = Done (RCUTILS_RET_OK, s')
      ∧ heap s' !! 1 = Some h'
      ∧ deps_list h' = deps_list (mk_handle 101 1 None 0 201) ++ [1]
      ∧ 1 ∈ deps_list h'
      ∧ num_of_dependencies h' = num_of_dependencies (mk_handle 101 1 None 0 201) + 1
      ∧ ref_count h' = ref_count (mk_handle 101 1 None 0 201) + 1
      ∧ wf [1] s'
      ∧ ∀ fuel, ∃ s'',
          release (S fuel) 1 s' = Done s''
          ∧ heap s'' !! 1 = Some (set_ref_count (ref_count (mk_handle 101 1 None 0 201)) h')
          ∧ trace s'' = trace one_handle.
Proof.
  split; [apply one_handle_wf|]. split; [reflexivity|]. split; [discriminate|].
  apply (self_dependency_accepted [1] one_handle 1 (mk_handle 101 1 None 0 201));
    [apply one_handle_wf|reflexivity|discriminate].
Defined.

(** ** Reference counts in reachable states *)

Lemma msum_pos_elem (f : rclpy_handle_t → Z) (m : gmap Z rclpy_handle_t) :
  0 < msum f m → ∃ k x, m !! k = Some x ∧ 0 < f x.
Proof.
  induction m as [|k x m Hk IH] using map_ind.
  - rewrite msum_empty. lia.
  - rewrite msum_insert by done. intros Hpos.
    destruct (decide (0 < f x)) as [Hx|Hx].
    + exists k, x. by rewrite lookup_insert_eq.
    + destruct IH as (j & y & Hj & Hy); [lia|].
      exists j, y. split; [|done].
      rewrite lookup_insert_ne; [done|]. intros ->. congruence.
Qed.

Lemma incoming_pos_slot s a :
  0 < incoming s a →
  ∃ x hx, heap s !! x = Some hx ∧ ref_count hx ≠ 0 ∧ a ∈ deps_list hx.
Proof.
  intros Hpos. destruct (msum_pos_elem _ _ Hpos) as (x & hx & Hx & Hout).
  exists x, hx. split; [done|]. unfold out_edges in Hout.
  destruct (ref_count hx =? 0) eqn:E; [lia|]. apply Z.eqb_neq in E.
  split; [done|]. by apply occ_pos_elem.
Qed.

Lemma slot_incoming s x hx a :
  heap s !! x = Some hx → ref_count hx ≠ 0 → a ∈ deps_list hx → 1 ≤ incoming s a.
Proof.
  intros Hx Hrc Ha. unfold incoming. rewrite (msum_delete _ _ _ _ Hx).
  assert (0 ≤ msum (out_edges a) (delete x (heap s))) by apply msum_nonneg, out_edges_nonneg.
  assert (0 < out_edges a hx); [|lia].
  unfold out_edges. apply Z.eqb_neq in Hrc. rewrite Hrc. by apply occ_pos_elem.
Qed.

(** X1: in every state the program can reach, the count of a handle is
    the number of references to it: one for its creator, as long as the
    creator has not released it, plus one for every slot of a dependency
    array that holds it.  The count is at least 1, and neither the
    increment of [_rclpy_handle_add_dependency] nor the size it computes
    for the grown array can wrap around. *)
Theorem count_is_number_of_references (owners : list Z) (s : state) (a : Z) (h : rclpy_handle_t) :
  reachable owners s → heap s !! a = Some h →
  ref_count h = (if bool_decide (a ∈ owners) then 1 else 0) + incoming s a
  ∧ 1 ≤ ref_count h
  ∧ ref_count h + 1 < SIZE_MOD
  ∧ (num_of_dependencies h + 1) * SIZEOF_PTR < SIZE_MOD.
Proof.
  intros Hr Ha. pose proof (reachable_wf _ _ Hr) as Hwf.
  destruct (wf_count_bound _ _ _ _ Hwf Ha) as [H1 H2].
  destruct (wf_live _ _ _ _ Hwf Ha) as (_ & _ & Hv & _).
  apply handle_valid_spec in Hv as (_ & Hnum & _).
  pose proof (used_ge_handle s a h Ha) as Hused.
  destruct Hwf as ((_ & _ & Hcount) & Hnd & _ & Hcap).
  specialize (Hcount a). rewrite (rcount_Some _ _ _ Ha) in Hcount.
  pose proof (occ_NoDup a owners Hnd). pose proof (occ_nonneg a owners).
  unfold handle_bytes, SIZEOF_HANDLE, SIZEOF_PTR in *. rewrite SIZE_MOD_eq in *.
  split; [|lia].
  case_bool_decide as Hin.
  - apply occ_pos_elem in Hin. lia.
  - assert (¬ 0 < occ a owners) by (by rewrite occ_pos_elem). lia.
Qed.

(** X2: in every reachable state, every entry of a dependency array is
    the address of a record that is in the heap, is valid and has a
    nonzero count: no array holds a dangling or a null pointer. *)
Theorem no_dangling_dependency (owners : list Z) (s : state) (x d : Z) (hx : rclpy_handle_t) :
  reachable owners s → heap s !! x = Some hx → d ∈ deps_list hx →
  ∃ hd, live s d hd.
Proof.
  intros Hr Hx Hd. pose proof (reachable_wf _ _ Hr) as Hwf.
  destruct (wf_live _ _ _ _ Hwf Hx) as (_ & _ & _ & Hx1).
  pose proof (slot_incoming s x hx d Hx ltac:(lia) Hd) as Hin.
  pose proof Hwf as ((_ & _ & Hcount) & _).
  specialize (Hcount d). pose proof (occ_nonneg d owners).
  unfold rcount in Hcount. destruct (heap s !! d) as [hd|] eqn:Hhd; [|lia].
  exists hd. by apply (wf_live owners).
Qed.

Lemma released_incoming s s' a : released s s' → incoming s' a ≤ incoming s a.
Proof.
  intros ((_ & _ & Hsub) & Hkeep & _). apply msum_le_sub; [apply out_edges_nonneg|].
  intros k h' Hh'. destruct (Hsub k h' Hh') as (h & Hh & Eq). exists h. split; [done|].
  unfold out_edges. destruct (ref_count h' =? 0) eqn:E'.
  - destruct (ref_count h =? 0); [lia|apply occ_nonneg].
  - destruct (ref_count h =? 0) eqn:E.
    + apply Z.eqb_eq in E. rewrite (Hkeep k h Hh E) in Hh'. injection Hh' as <-.
      apply Z.eqb_neq in E'. done.
    + rewrite Eq. done.
Qed.

(** X3: from a reachable state, the release by a creator of its own
    reference returns, with the same result for every sufficient depth of
    recursion; the state it leaves is again reachable, with that creator
    no longer an owner; and no count has grown: every record of the new
    heap was in the old one with a count at least as large. *)
Theorem owner_release_returns (owners owners' : list Z) (s : state) (a : Z) :
  reachable owners s → owners ≡ₚ a :: owners' →
  ∃ fuel0 s',
    (∀ fuel, (fuel0 ≤ fuel)%nat → release fuel a s = Done s')
    ∧ reachable owners' s'
    ∧ (∀ b h', heap s' !! b = Some h' →
         ∃ h, heap s !! b = Some h ∧ ref_count h' ≤ ref_count h).
Proof.
  intros Hr Hp. pose proof (reachable_wf _ _ Hr) as Hwf.
  apply (wf_Permutation _ _ _ Hp) in Hwf.
  destruct (wf_release owners' s a Hwf) as (f & s' & Hf & Hwf' & Hrel).
  exists f, s'. split; [|split].
  - intros fuel Hle. destruct (fuel_mono f) as [Hm _]. by apply (Hm fuel).
  - by apply (reach_release owners owners' s a f s').
  - intros b h' Hb. pose proof Hrel as ((_ & _ & Hsub) & _).
    destruct (Hsub b h' Hb) as (h & Hh & _). exists h. split; [done|].
    pose proof (released_incoming s s' b Hrel) as Hinc.
    destruct Hwf as ((_ & _ & Hc) & _). destruct Hwf' as ((_ & _ & Hc') & _).
    specialize (Hc b). specialize (Hc' b).
    rewrite (rcount_Some _ _ _ Hh) in Hc. rewrite (rcount_Some _ _ _ Hb) in Hc'.
    simpl in Hc. case_bool_decide; lia.
Qed.

(** X4: a dependency outlives its dependent.  When a handle [b] that is
    held in the array of some handle [x] is released by its creator, its
    count is at least 2, so the release only decrements the count: the
    record of [b] stays in the heap, no destructor is called and nothing
    is deallocated. *)
Theorem dependency_outlives_dependent
    (owners : list Z) (s : state) (x b : Z) (hx hb : rclpy_handle_t) (fuel : nat) :
  reachable owners s → b ∈ owners →
  heap s !! x = Some hx → b ∈ deps_list hx → heap s !! b = Some hb →
  2 ≤ ref_count hb
  ∧ ∃ s', release (S fuel) b s = Done s'
          ∧ heap s' = <[b := set_ref_count (ref_count hb - 1) hb]> (heap s)
          ∧ trace s' = trace s.
Proof.
  intros Hr Hb Hx Hd Hhb. pose proof (reachable_wf _ _ Hr) as Hwf.
  destruct (wf_live _ _ _ _ Hwf Hx) as (_ & _ & _ & Hx1).
  pose proof (slot_incoming s x hx b Hx ltac:(lia) Hd) as Hin.
  pose proof Hwf as ((_ & _ & Hcount) & _).
  specialize (Hcount b). rewrite (rcount_Some _ _ _ Hhb) in Hcount.
  apply occ_pos_elem in Hb.
  assert (2 ≤ ref_count hb) as H2 by lia. split; [done|].
  rewrite (dec_ref_shared fuel s b hb (wf_live _ _ _ _ Hwf Hhb) H2).
  eexists. split; [done|]. done.
Qed.

(** ** Handles without a cycle *)

Lemma held_if_acyclic (owners : list Z) (s : state) (a : Z) (h : rclpy_handle_t) :
  reachable owners s → acyclic s → heap s !! a = Some h → held_from owners s a.
Proof.
  intros Hr [level Hlevel] Ha. pose proof (reachable_wf _ _ Hr) as Hwf.
  remember (level a) as n eqn:Hn. revert a h Ha Hn.
  induction n as [n IH] using lt_wf_ind. intros a h Ha ->.
  pose proof Hwf as ((_ & _ & Hcount) & _ & Hlive & _).
  specialize (Hcount a). rewrite (rcount_Some _ _ _ Ha) in Hcount.
  pose proof (Hlive a h Ha). pose proof (occ_nonneg a owners).
  pose proof (incoming_nonneg s a).
  destruct (decide (0 < occ a owners)) as [Ho|Ho].
  - apply held_owner. by apply occ_pos_elem.
  - destruct (incoming_pos_slot s a) as (x & hx & Hx & _ & Hd); [lia|].
    apply (held_slot owners s x hx a); [|done|done].
    apply (IH (level x) (Hlevel x hx a Hx Hd) x hx Hx eq_refl).
Qed.

Lemma acyclic_no_leak (s : state) :
  reachable [] s → acyclic s → heap s = ∅.
Proof.
  intros Hr Hac. apply map_empty. intros a.
  destruct (heap s !! a) as [h|] eqn:Ha; [|done].
  pose proof (held_if_acyclic [] s a h Hr Hac Ha) as Hheld.
  exfalso. clear -Hheld. induction Hheld as [a Hin|]; [|done]. by apply elem_of_nil in Hin.
Qed.

(** X5: nothing leaks unless there is a cycle.  In a reachable state
    whose dependency arrays form no cycle, every record of the heap is
    held by a creator that has not yet released its reference, directly
    or through a path of dependency arrays; so once every creator has
    released its reference, the heap is empty. *)
Theorem acyclic_records_are_held (owners : list Z) (s : state) :
  reachable owners s → acyclic s →
  (∀ a h, heap s !! a = Some h → held_from owners s a)
  ∧ (owners = [] → heap s = ∅).
Proof.
  intros Hr Hac. split.
  - intros a h Ha. by apply (held_if_acyclic owners s a h).
  - intros ->. by apply acyclic_no_leak.
Qed.

Lemma acyclic_shrinks s s' : shrinks s s' → acyclic s → acyclic s'.
Proof.
  intros (_ & _ & Hsub) [level Hl]. exists level. intros x hx' d Hx Hd.
  destruct (Hsub x hx' Hx) as (hx & Hhx & Eq).
  apply (Hl x hx d Hhx). rewrite Eq in Hd. done.
Qed.

(** ** What the operations leave alone *)

(** The heap after a returned [add_dependency x y], whatever it returned. *)
Lemma add_dependency_heap s x y r s' :
  add_dependency x y s = Done (r, s') →
  trace s' = trace s
  ∧ ∃ hx, heap s !! x = Some hx
    ∧ (r = RCUTILS_RET_ERROR → heap s' = heap s)
    ∧ (r = RCUTILS_RET_OK →
       ∃ arr hy,
         let hx' := set_dependencies (Some arr)
                      (set_num_of_dependencies (wrap (num_of_dependencies hx + 1)) hx) in
         <[x := hx']> (heap s) !! y = Some hy
         ∧ heap s' = <[y := set_ref_count (wrap (ref_count hy + 1)) hy]>
                       (<[x := hx']> (heap s))).
Proof.
  destruct (decide (x = NULL)) as [->|Hx]; [done|].
  destruct (decide (y = NULL)) as [->|Hy].
  { unfold _rclpy_handle_add_dependency. rewrite (eqb_NULL_false x Hx). done. }
  destruct (heap s !! x) as [hx|] eqn:Hhx.
  2:{ unfold _rclpy_handle_add_dependency, load.
      rewrite (eqb_NULL_false x Hx), (eqb_NULL_false y Hy), Hhx. done. }
  rewrite (add_dependency_unfold x y s hx) by done.
  pose proof (reallocate_frame (dependencies hx)
                (wrap (wrap (num_of_dependencies hx + 1) * SIZEOF_PTR)) s) as [Hh1 Ht1].
  fold (grow hx s) in Hh1, Ht1.
  destruct (grow hx s) as [[arr|] s1] eqn:Hg; simpl in *.
  2:{ intros [= <- <-]. split; [done|]. exists hx. split; [done|]. split; [done|]. done. }
  destruct (array_store _ _ _) as [arr'| |] eqn:Hst; simpl; try done.
  unfold load. simpl.
  destruct (<[x := _]> (heap s) !! y) as [hy|] eqn:Hhy; simpl; [|done].
  intros [= <- <-]. split; [done|]. exists hx. split; [done|]. split; [done|].
  intros _. exists arr', hy. split; [done|]. done.
Qed.

(** X6: a call of [_rclpy_handle_add_dependency] that returns, with
    either result and from any state, calls no destructor and deallocates
    nothing, neither adds a record to the heap nor removes one, and
    leaves the resource pointer and the destructor of every record as
    they are; the array and its length change in the dependent only, the
    count in the dependency only. *)
Theorem add_dependency_frame (s : state) (x y : Z) (r : rcutils_ret_t) (s' : state) :
  add_dependency x y s = Done (r, s') →
  trace s' = trace s
  ∧ (∀ a, heap s' !! a = None ↔ heap s !! a = None)
  ∧ (∀ a h, heap s !! a = Some h →
       ∃ h', heap s' !! a = Some h'
             ∧ ptr h' = ptr h ∧ destructor h' = destructor h
             ∧ (a ≠ x → dependencies h' = dependencies h
                        ∧ num_of_dependencies h' = num_of_dependencies h)
             ∧ (a ≠ y → ref_count h' = ref_count h)).
Proof.
  intros Hadd. destruct (add_dependency_heap s x y r s' Hadd) as (Ht & hx & Hx & Herr & Hok).
  split; [done|]. destruct r.
  - destruct (Hok eq_refl) as (arr & hy & Hy & Hheap). clear Hok Herr.
    set (hx' := set_dependencies (Some arr)
                  (set_num_of_dependencies (wrap (num_of_dependencies hx + 1)) hx)) in *.
    assert (∃ hy0, heap s !! y = Some hy0 ∧ ptr hy = ptr hy0 ∧ destructor hy = destructor hy0
                   ∧ (y ≠ x → hy = hy0) ∧ (y = x → hy = hx')) as (hy0 & Hy0 & Hp & Hd & Hne & Heq).
    { destruct (decide (y = x)) as [->|Hyx].
      - rewrite lookup_insert_eq in Hy. injection Hy as <-. exists hx. done.
      - rewrite lookup_insert_ne in Hy by done. exists hy. done. }
    split.
    + intros a. rewrite Hheap. destruct (decide (a = y)) as [->|Hay].
      { rewrite lookup_insert_eq, Hy0. done. }
      rewrite lookup_insert_ne by done. destruct (decide (a = x)) as [->|Hax].
      { rewrite lookup_insert_eq, Hx. done. }
      by rewrite lookup_insert_ne.
    + intros a h Ha. rewrite Hheap. destruct (decide (a = y)) as [->|Hay].
      { rewrite lookup_insert_eq. eexists. split; [done|]. simpl.
        assert (h = hy0) as -> by congruence.
        split; [done|]. split; [done|]. split; [|done].
        intros Hyx. by rewrite (Hne Hyx). }
      rewrite lookup_insert_ne by done. destruct (decide (a = x)) as [->|Hax].
      { rewrite lookup_insert_eq. eexists. split; [done|].
        assert (h = hx) as -> by congruence. done. }
      rewrite lookup_insert_ne by done. exists h. done.
  - rewrite (Herr eq_refl). split; [done|]. intros a h Ha. exists h. done.
Qed.

Lemma shrinks_fields s s' b h' :
  shrinks s s' → heap s' !! b = Some h' →
  ∃ h, heap s !! b = Some h
       ∧ ptr h' = ptr h ∧ dependencies h' = dependencies h
       ∧ num_of_dependencies h' = num_of_dependencies h
       ∧ destructor h' = destructor h.
Proof.
  intros (_ & _ & Hsub) Hb. destruct (Hsub b h' Hb) as (h & Hh & Eq).
  exists h. split; [done|]. rewrite Eq. done.
Qed.

(** X7: a call of [_rclpy_handle_dec_ref] that returns, from any state
    and at any depth of recursion, asks the allocator for nothing, only
    appends to the sequence of destructor calls and deallocations, and
    adds no record to the heap; in a record that stays it changes nothing
    but the count. *)
Theorem release_frame (fuel : nat) (a : Z) (s s' : state) :
  release fuel a s = Done s' →
  alloc_script s' = alloc_script s
  ∧ (∃ t, trace s' = trace s ++ t)
  ∧ (∀ b h', heap s' !! b = Some h' →
       ∃ h, heap s !! b = Some h
            ∧ ptr h' = ptr h ∧ dependencies h' = dependencies h
            ∧ num_of_dependencies h' = num_of_dependencies h
            ∧ destructor h' = destructor h).
Proof.
  intros Hr. destruct (release_shrinks fuel) as [Hshr _].
  pose proof (Hshr a s s' Hr) as Hs. pose proof Hs as (Ha & Ht & _).
  split; [done|]. split; [done|]. intros b h'. by apply shrinks_fields.
Qed.

Lemma get_pointer_lookup a s p :
  a ≠ NULL → (get_pointer a s = Done p ↔ ∃ h, heap s !! a = Some h ∧ ptr h = p).
Proof.
  intros Ha. unfold _rclpy_handle_get_pointer, load. rewrite (eqb_NULL_false a Ha).
  destruct (heap s !! a) as [h|]; simpl.
  - split; [intros [= <-]; by exists h|]. intros (h0 & [= <-] & <-). done.
  - split; [done|]. by intros (h0 & ? & _).
Qed.

(** X8: the resource pointer of a handle never changes.  Once
    [_rclpy_handle_get_pointer] has returned [p] for a handle, it returns
    [p] after every call of [_rclpy_create_handle] and of
    [_rclpy_handle_add_dependency] that returns, and after every call of
    [_rclpy_handle_dec_ref] that returns and has not destroyed the
    handle. *)
Theorem resource_pointer_is_stable (s : state) (a p : Z) :
  a ≠ NULL → get_pointer a s = Done p →
  (∀ r d H s', create r d s = Done (H, s') → get_pointer a s' = Done p)
  ∧ (∀ x y r s', add_dependency x y s = Done (r, s') → get_pointer a s' = Done p)
  ∧ (∀ fuel b s', release fuel b s = Done s' →
       get_pointer a s' = Done p ∨ heap s' !! a = None).
Proof.
  intros Ha Hp. apply (get_pointer_lookup a s p Ha) in Hp as (h & Hh & Hptr).
  split; [|split].
  - intros r d H s' Hc. apply (get_pointer_lookup a s' p Ha).
    destruct (decide (r = NULL)) as [->|Hr]; [done|].
    destruct (decide (d = NULL)) as [->|Hd].
    { unfold _rclpy_create_handle in Hc. by rewrite (eqb_NULL_false r Hr) in Hc. }
    rewrite create_unfold in Hc by done.
    destruct (_ =? NULL) eqn:Hz; injection Hc as <- <-.
    + apply Z.eqb_eq in Hz. destruct (zero_allocate_null s Hz) as [-> _]. by exists h.
    + apply Z.eqb_neq in Hz. destruct (zero_allocate_ok s Hz) as (Hfresh & _).
      exists h. simpl. rewrite lookup_insert_ne; [done|]. intros Heq. congruence.
  - intros x y r s' Hadd. apply (get_pointer_lookup a s' p Ha).
    destruct (add_dependency_heap s x y r s' Hadd) as (_ & hx & Hx & Herr & Hok).
    destruct r.
    + destruct (Hok eq_refl) as (arr & hy & Hy & ->). clear Hok Herr.
      destruct (decide (a = y)) as [->|Hay].
      * rewrite lookup_insert_eq. eexists. split; [done|]. simpl.
        destruct (decide (y = x)) as [->|Hyx].
        -- rewrite lookup_insert_eq in Hy. injection Hy as <-. simpl. congruence.
        -- rewrite lookup_insert_ne in Hy by done. congruence.
      * rewrite lookup_insert_ne by done. destruct (decide (a = x)) as [->|Hax].
        -- rewrite lookup_insert_eq. eexists. split; [done|]. simpl. congruence.
        -- rewrite lookup_insert_ne by done. by exists h.
    + rewrite (Herr eq_refl). by exists h.
  - intros fuel b s' Hr. destruct (heap s' !! a) as [h'|] eqn:Hh'; [left|by right].
    apply (get_pointer_lookup a s' p Ha).
    destruct (release_shrinks fuel) as [Hshr _].
    destruct (shrinks_fields s s' a h' (Hshr b s s' Hr) Hh') as (h0 & Hh0 & Hp0 & _).
    exists h'. split; [done|]. congruence.
Qed.

(** ** Creation followed by release *)

(** The release of a handle that has just been created. *)
Lemma release_created r d s H s' fuel :
  r ≠ NULL → d ≠ NULL → create r d s = Done (H, s') → H ≠ NULL →
  release (S (S fuel)) H s'
  = Done (mk_state (heap s)
            (trace s ++ [EvDestructor H d r; EvFreeDependencies H; EvFreeHandle H])
            (alloc_script s')).
Proof.
  intros Hr Hd Hc HH. rewrite create_unfold in Hc by done.
  destruct (_ =? NULL) eqn:Hz; injection Hc as <- <-; [done|].
  destruct (zero_allocate_ok s HH) as (Hfresh & _ & Htrace & _).
  set (H := (zero_allocate s).1) in *.
  rewrite (dec_ref_unfold (S fuel) H _ (mk_handle r 1 None 0 d)); try done.
  2:{ simpl. by rewrite lookup_insert_eq. }
  change (wrap (ref_count (mk_handle r 1 None 0 d) - 1)) with 0.
  cbv zeta. change (0 =? 0) with true. cbv iota.
  change (destructor (mk_handle r 1 None 0 d)) with d.
  rewrite (eqb_NULL_false d Hd).
  cbn [dec_ref_loop]. rewrite load_Some with (h := mk_handle r 0 None 0 d).
  2:{ simpl. by rewrite lookup_insert_eq. }
  simpl. unfold deallocate_handle, deallocate_dependencies, emit, set_heap. simpl.
  rewrite insert_insert_eq, delete_insert_id, Htrace by done.
  by rewrite <- !app_assoc.
Qed.

(** X9: creation and release are inverse on the heap.  Releasing a
    handle right after a successful [_rclpy_create_handle], from any state
    and whatever address the allocator chose, leaves the heap exactly as
    it was before the creation, and does exactly this: one call of the
    destructor on the resource, then the deallocation of the array, then
    the deallocation of the record. *)
Theorem create_then_release (r d : Z) (s : state) (H : Z) (s' : state) (fuel : nat) :
  r ≠ NULL → d ≠ NULL → create r d s = Done (H, s') → H ≠ NULL →
  ∃ s'',
    release (S (S fuel)) H s' = Done s''
    ∧ heap s'' = heap s
    ∧ trace s'' = trace s ++ [EvDestructor H d r; EvFreeDependencies H; EvFreeHandle H].
Proof.
  intros Hr Hd Hc HH. rewrite (release_created r d s H s' fuel Hr Hd Hc HH).
  eexists. split; [done|]. done.
Qed.

(** X18: [_rclpy_create_handle] stops at an assertion exactly when the
    resource pointer or the destructor is [NULL]; with both non-null it
    always returns, whatever the allocator answers. *)
Theorem create_faults_on_null_arguments (r d : Z) (s : state) :
  (create r d s = Fault ↔ r = NULL ∨ d = NULL)
  ∧ create r d s ≠ OutOfFuel.
Proof.
  destruct (decide (r = NULL)) as [->|Hr].
  { split; [|done]. split; [by left|done]. }
  destruct (decide (d = NULL)) as [->|Hd].
  { unfold _rclpy_create_handle. rewrite (eqb_NULL_false r Hr).
    split; [|done]. split; [by right|done]. }
  rewrite create_unfold by done. cbv zeta.
  destruct (_ =? NULL); (split; [|done]); (split; [done|]); by intros [?|?].
Qed.

(** ** Chains of handles *)

Lemma chain_heap_insert l m a h :
  a ∉ chain_addrs l → <[a := h]> (chain_heap l m) = chain_heap l (<[a := h]> m).
Proof.
  induction l as [|[[b rb] db] l IH]; [done|]. intros Hnot.
  unfold chain_addrs in Hnot. rewrite fmap_cons in Hnot.
  apply not_elem_of_cons in Hnot as [Hab Hl]. simpl in *.
  rewrite insert_insert_ne by done. by rewrite IH.
Qed.

Lemma chain_release l : ∀ a r d s m fuel,
  chain_ok ((a, r, d) :: l) m →
  heap s = chain_heap ((a, r, d) :: l) m →
  (2 * S (length l) ≤ fuel)%nat →
  release fuel a s
  = Done (mk_state m (trace s ++ chain_events ((a, r, d) :: l)) (alloc_script s)).
Proof.
  induction l as [|[[b rb] db] l IH]; intros a r d s m fuel [Hnd Hall] Hheap Hfuel.
  - apply Forall_cons in Hall as [(Ha & Hd & Hm) _]. simpl in *.
    destruct fuel as [|[|f]]; [lia|lia|].
    rewrite (dec_ref_unfold (S f) a s (mk_handle r 1 None 0 d)); try done.
    2:{ by rewrite Hheap, lookup_insert_eq. }
    change (wrap (ref_count (mk_handle r 1 None 0 d) - 1)) with 0.
    cbv zeta. change (0 =? 0) with true. cbv iota.
    change (destructor (mk_handle r 1 None 0 d)) with d.
    rewrite (eqb_NULL_false d Hd).
    cbn [dec_ref_loop]. rewrite load_Some with (h := mk_handle r 0 None 0 d).
    2:{ simpl. by rewrite lookup_insert_eq. }
    simpl. unfold deallocate_handle, deallocate_dependencies, emit, set_heap. simpl.
    rewrite Hheap, insert_insert_eq, delete_insert_id by done.
    by rewrite <- !app_assoc.
  - pose proof Hall as Hall0.
    apply Forall_cons in Hall as [(Ha & Hd & Hm) Hrest]. simpl in Ha, Hd, Hm.
    unfold chain_addrs in Hnd. rewrite fmap_cons in Hnd.
    apply NoDup_cons in Hnd as [Hnotin Hnd']. fold (chain_addrs ((b, rb, db) :: l)) in Hnotin, Hnd'.
    simpl in Hnotin.
    destruct fuel as [|[|f]]; [simpl in Hfuel; lia|simpl in Hfuel; lia|].
    set (hA := mk_handle r 1 (Some [b]) 1 d).
    set (hA0 := mk_handle r 0 (Some [b]) 1 d).
    assert (heap s !! a = Some hA) as HA by (rewrite Hheap; simpl; by rewrite lookup_insert_eq).
    rewrite (dec_ref_unfold (S f) a s hA); try done.
    change (wrap (ref_count hA - 1)) with 0.
    cbv zeta. change (0 =? 0) with true. cbv iota.
    change (destructor hA) with d. rewrite (eqb_NULL_false d Hd).
    change (set_ref_count 0 hA) with hA0. change (ptr hA) with r.
    set (s2 := emit (EvDestructor a d r) (store a hA0 s)).
    assert (heap s2 = chain_heap ((b, rb, db) :: l) (<[a := hA0]> m)) as Hheap2.
    { unfold s2, store. simpl heap. rewrite Hheap.
      change (chain_heap ((a, r, d) :: (b, rb, db) :: l) m)
        with (<[a := hA]> (chain_heap ((b, rb, db) :: l) m)).
      rewrite insert_insert_eq. by apply chain_heap_insert. }
    assert (chain_ok ((b, rb, db) :: l) (<[a := hA0]> m)) as Hok2.
    { split; [done|]. apply Forall_forall. intros e He.
      pose proof (proj1 (Forall_forall _ _) Hrest e He) as (? & ? & ?).
      repeat split; try done. rewrite lookup_insert_ne; [done|].
      intros Heq. apply Hnotin. rewrite Heq.
      change (b :: chain_addrs l) with ((λ e, e.1.1) <$> ((b, rb, db) :: l)).
      apply list_elem_of_fmap. by exists e. }
    cbn [dec_ref_loop].
    rewrite load_Some with (h := hA0).
    2:{ unfold s2, store. simpl. by rewrite lookup_insert_eq. }
    simpl mbind. change (0 <? num_of_dependencies hA0) with true. cbv iota.
    change (dependencies hA0) with (Some [b]). cbv iota.
    change ([b] !! Z.to_nat 0) with (Some b). cbv iota.
    rewrite (IH b rb db s2 (<[a := hA0]> m) f Hok2 Hheap2) by (simpl in Hfuel; lia).
    rewrite bind_Done. change (wrap (0 + 1)) with 1.
    destruct f as [|f']; [simpl in Hfuel; lia|].
    cbn [dec_ref_loop]. rewrite load_Some with (h := hA0).
    2:{ simpl. by rewrite lookup_insert_eq. }
    simpl mbind. change (1 <? num_of_dependencies hA0) with false. cbv iota.
    unfold deallocate_handle, deallocate_dependencies, emit, set_heap. simpl.
    rewrite delete_insert_id by done.
    do 2 f_equal. rewrite <- !app_assoc. simpl. by rewrite <- !app_assoc.
Qed.

Lemma chain_events_others a l :
  a ∉ chain_addrs l → destructor_calls a (chain_events l) = 0%nat.
Proof.
  intros Hnot. apply destructor_calls_none. revert Hnot.
  induction l as [|[[b rb] db] l IH]; [constructor|]. intros Hnot.
  unfold chain_addrs in Hnot. rewrite fmap_cons in Hnot.
  apply not_elem_of_cons in Hnot as [Hab Hl]. simpl in Hab.
  simpl. constructor; [simpl; congruence|].
  apply Forall_app. split; [by apply IH|].
  repeat constructor; simpl; congruence.
Qed.

Lemma chain_events_once l :
  NoDup (chain_addrs l) →
  ∀ a, a ∈ chain_addrs l → destructor_calls a (chain_events l) = 1%nat.
Proof.
  induction l as [|[[b rb] db] l IH]; intros Hnd a Ha.
  { by apply elem_of_nil in Ha. }
  unfold chain_addrs in Hnd, Ha. rewrite fmap_cons in Hnd, Ha.
  apply NoDup_cons in Hnd as [Hnot Hnd]. simpl in Hnot, Ha.
  change (chain_events ((b, rb, db) :: l))
    with ([EvDestructor b db rb] ++ chain_events l ++ [EvFreeDependencies b; EvFreeHandle b]).
  rewrite !destructor_calls_app.
  assert (destructor_calls a [EvFreeDependencies b; EvFreeHandle b] = 0%nat) as -> by done.
  apply elem_of_cons in Ha as [->|Ha].
  - rewrite (chain_events_others b l Hnot).
    unfold destructor_calls. rewrite filter_cons, filter_nil. simpl.
    rewrite bool_decide_eq_true_2 by done. by case_decide.
  - rewrite (IH Hnd a Ha).
    assert (a ≠ b) by (intros ->; done).
    unfold destructor_calls. rewrite filter_cons, filter_nil. simpl.
    rewrite bool_decide_eq_false_2 by done. by case_decide.
Qed.

(** X10: the release of the head of a chain of any length, in which each
    handle is held only by the array of its predecessor, destroys the
    whole chain: with a recursion depth of twice the length of the chain
    it returns, the records of the chain are gone and the rest of the
    heap is as it was, the destructors have been called from the head to
    the end of the chain and the records deallocated from the end back to
    the head, and each destructor has been called exactly once. *)
Theorem chain_released_in_order
    (a r d : Z) (rest : list (Z * Z * Z)) (m : gmap Z rclpy_handle_t)
    (s : state) (fuel : nat) :
  chain_ok ((a, r, d) :: rest) m →
  heap s = chain_heap ((a, r, d) :: rest) m →
  (2 * S (length rest) ≤ fuel)%nat →
  ∃ s',
    release fuel a s = Done s'
    ∧ heap s' = m
    ∧ trace s' = trace s ++ chain_events ((a, r, d) :: rest)
    ∧ ∀ x, x ∈ chain_addrs ((a, r, d) :: rest) →
           destructor_calls x (chain_events ((a, r, d) :: rest)) = 1%nat.
Proof.
  intros Hok Hheap Hfuel. rewrite (chain_release rest a r d s m fuel Hok Hheap Hfuel).
  eexists. split; [done|]. split; [done|]. split; [done|].
  apply chain_events_once, Hok.
Qed.

(** ** Every destroyed handle is finalized exactly once *)

Lemma handle_frees_app a t1 t2 :
  handle_frees a (t1 ++ t2) = (handle_frees a t1 + handle_frees a t2)%nat.
Proof. unfold handle_frees. by rewrite filter_app, length_app. Qed.

Lemma finalized_once_refl s : finalized_once s s.
Proof.
  split; [by eauto|]. exists []. split; [by rewrite app_nil_r|]. split.
  - intros x fn arg Hin. by apply elem_of_nil in Hin.
  - intros x. unfold destroyed. by destruct (heap s !! x).
Qed.

Lemma finalized_once_trans s1 s2 s3 :
  finalized_once s1 s2 → finalized_once s2 s3 → finalized_once s1 s3.
Proof.
  intros (Hd1 & t1 & Ht1 & He1 & Hk1) (Hd2 & t2 & Ht2 & He2 & Hk2). split.
  - intros x h3 H3. destruct (Hd2 x h3 H3) as (h2 & H2 & -> & ->). by apply Hd1.
  - exists (t1 ++ t2). split; [by rewrite Ht2, Ht1, app_assoc|]. split.
    + intros x fn arg Hin. apply elem_of_app in Hin as [Hin|Hin]; [by apply He1|].
      destruct (He2 x fn arg Hin) as (h2 & H2 & -> & ->). by apply Hd1.
    + intros x. specialize (Hk1 x). specialize (Hk2 x).
      specialize (Hd1 x). specialize (Hd2 x). cbv zeta in *.
      rewrite destructor_calls_app, handle_frees_app. unfold destroyed in *.
      destruct (heap s1 !! x), (heap s2 !! x) eqn:E2, (heap s3 !! x) eqn:E3; simpl in *;
        try (by destruct (Hd1 _ eq_refl) as (? & ? & _));
        try (by destruct (Hd2 _ eq_refl) as (? & ? & _)); lia.
Qed.

Lemma release_counted_at refs s a fuel s' :
  counted (a :: refs) s → release fuel a s = Done s' → counted refs s' ∧ released s s'.
Proof.
  intros Hc Hr.
  destruct (release_counted (Z.to_nat (live_count s)) s refs a ltac:(lia) Hc)
    as (f & s0 & Hr0 & Hc0 & Hrel0).
  by rewrite (release_deterministic _ _ _ _ _ _ Hr Hr0).
Qed.

Lemma release_all_once (m : nat) :
  (∀ s refs a fuel s', live_count s ≤ Z.of_nat m → counted (a :: refs) s →
     release fuel a s = Done s' → finalized_once s s') →
  ∀ ds s refs fuel s', live_count s ≤ Z.of_nat m → counted (ds ++ refs) s →
    release_all fuel ds s = Done s' → finalized_once s s'.
Proof.
  intros IH ds. induction ds as [|d ds IHds]; intros s refs fuel s' Hn Hc.
  - intros [= <-]. apply finalized_once_refl.
  - rewrite release_all_cons. intros Hall.
    apply bind_Done_inv in Hall as (s1 & Hr & Hall).
    destruct (release_counted_at _ _ _ _ _ Hc Hr) as [Hc1 Hrel1].
    pose proof (released_live_count _ _ Hrel1).
    apply (finalized_once_trans s s1 s').
    + by apply (IH s (ds ++ refs) d fuel).
    + apply (IHds s1 refs fuel); [lia|done|done].
Qed.

Lemma release_once (n : nat) :
  ∀ s refs a fuel s', live_count s ≤ Z.of_nat n → counted (a :: refs) s →
    release fuel a s = Done s' → finalized_once s s'.
Proof.
  induction n as [n IH] using lt_wf_ind. intros s refs a fuel s' Hn Hc Hr.
  destruct (counted_head _ _ _ Hc) as (h & Ha & Hnull & Hv & Heq).
  pose proof (occ_nonneg a refs). pose proof (incoming_nonneg s a).
  pose proof Hv as Hv'. apply handle_valid_spec in Hv' as (Hrange & _ & _ & Hcons & _ & Hd).
  destruct (decide (ref_count h = 1)) as [Hrc|Hrc].
  - pose proof (live_count_pos s a h Ha ltac:(lia)).
    destruct n as [|m]; [lia|].
    destruct (release_last m a refs s h (release_counted m) Hn Hc Ha Hrc)
      as (f & s3 & Hall & Hrel & Hc3 & Hrel3 & Ha3).
    rewrite (release_deterministic _ _ _ _ _ _ Hr Hrel).
    set (s2 := emit (EvDestructor a (destructor h) (ptr h))
                 (store a (set_ref_count 0 h) s)) in *.
    assert (∀ x, x ≠ a → heap s2 !! x = heap s !! x) as Hother.
    { intros x Hx. unfold s2, store. simpl. by rewrite lookup_insert_ne. }
    assert (heap s2 !! a = Some (set_ref_count 0 h)) as Ha2.
    { unfold s2, store. simpl. by rewrite lookup_insert_eq. }
    assert (∀ x h2, heap s2 !! x = Some h2 →
              ∃ h0, heap s !! x = Some h0 ∧ ptr h2 = ptr h0 ∧ destructor h2 = destructor h0)
      as Hfields.
    { intros x h2. destruct (decide (x = a)) as [->|Hxa].
      - rewrite Ha2. intros [= <-]. by exists h.
      - rewrite (Hother x Hxa). by eauto. }
    assert (finalized_once s2 s3) as (Hdom & t & Ht & He & Hk).
    { apply (release_all_once m) with (ds := deps_list h) (refs := refs) (fuel := f).
      - intros s0 refs0 a0 fuel0 s0' Hn0 Hc0 Hr0.
        apply (IH m ltac:(lia) s0 refs0 a0 fuel0 s0' Hn0 Hc0 Hr0).
      - unfold live_count, s2, store. simpl. rewrite (msum_update _ _ _ _ h Ha).
        unfold live_weight at 2 3. simpl. rewrite Hrc. simpl.
        fold (live_count s). lia.
      - eapply counted_heap_eq; [|by apply (counted_teardown a refs s h)]. done.
      - done. }
    split.
    + intros x h'. simpl. intros Hx. apply lookup_delete_Some in Hx as [Hxa Hx].
      destruct (Hdom x h' Hx) as (h2 & H2 & -> & ->). by apply Hfields.
    + exists ([EvDestructor a (destructor h) (ptr h)] ++ t
              ++ [EvFreeDependencies a; EvFreeHandle a]).
      split; [simpl; rewrite Ht; unfold s2; simpl; by rewrite <- !app_assoc|]. split.
      * intros x fn arg Hin. apply elem_of_app in Hin as [Hin|Hin].
        { apply list_elem_of_singleton in Hin. injection Hin as -> -> ->. by exists h. }
        apply elem_of_app in Hin as [Hin|Hin].
        { destruct (He x fn arg Hin) as (h2 & H2 & -> & ->). by apply Hfields. }
        apply elem_of_cons in Hin as [Hin|Hin]; [done|].
        by apply list_elem_of_singleton in Hin.
      * intros x. specialize (Hk x). cbv zeta in *.
        rewrite !destructor_calls_app, !handle_frees_app.
        unfold destroyed in *. simpl in *.
        destruct (decide (x = a)) as [->|Hxa].
        -- rewrite Ha, lookup_delete_eq. rewrite Ha2, Ha3 in Hk. destruct Hk as [-> ->].
           unfold destructor_calls, handle_frees. rewrite !filter_cons. simpl.
           rewrite bool_decide_eq_true_2 by done.
           repeat case_decide; done.
        -- rewrite lookup_delete_ne by done. rewrite (Hother x Hxa) in Hk.
           destruct Hk as [-> ->].
           unfold destructor_calls, handle_frees. rewrite !filter_cons. simpl.
           rewrite bool_decide_eq_false_2 by done.
           repeat case_decide; try done; try congruence; simpl; lia.
  - assert (s' = store a (set_ref_count (ref_count h - 1) h) s) as ->.
    { apply (release_deterministic fuel 1 a s); [done|].
      rewrite (dec_ref_unfold 0 a s h) by done. simpl.
      rewrite wrap_small by lia.
      destruct (ref_count h - 1 =? 0) eqn:E; [apply Z.eqb_eq in E; lia|done]. }
    split.
    + intros x h'. unfold store. simpl. destruct (decide (x = a)) as [->|Hxa].
      * rewrite lookup_insert_eq. intros [= <-]. by exists h.
      * rewrite lookup_insert_ne by done. by eauto.
    + exists []. split; [by rewrite app_nil_r|]. split.
      * intros x fn arg Hin. by apply elem_of_nil in Hin.
      * intros x. unfold destroyed, store. simpl.
        destruct (decide (x = a)) as [->|Hxa].
        -- rewrite Ha, lookup_insert_eq. done.
        -- rewrite lookup_insert_ne by done. by destruct (heap s !! x).
Qed.

(** X11: a release by a creator, from a reachable state, finalizes
    exactly the handles it destroys.  For every record that leaves the
    heap the destructor is called exactly once and the record is
    deallocated exactly once; for a record that stays, and for any other
    address, there is no destructor call and no deallocation; and every
    destructor call is the call of the destructor stored in the record,
    on the resource pointer stored in the record. *)
Theorem destroyed_handles_are_finalized_once
    (owners : list Z) (s : state) (a : Z) (fuel : nat) (s' : state) :
  reachable owners s → a ∈ owners → release fuel a s = Done s' →
  ∃ t, trace s' = trace s ++ t ∧ finalizes s s' t.
Proof.
  intros Hr Ha Hrel. apply elem_of_Permutation in Ha as [owners' Hp].
  pose proof (reachable_wf _ _ Hr) as Hwf. apply (wf_Permutation _ _ _ Hp) in Hwf.
  destruct Hwf as (Hc & _).
  apply (release_once (Z.to_nat (live_count s)) s owners' a fuel s' ltac:(lia) Hc Hrel).
Qed.

Lemma release_owners_returns (order : list Z) :
  ∀ owners s, reachable owners s → order ≡ₚ owners →
  ∃ fuel0 s',
    (∀ fuel, (fuel0 ≤ fuel)%nat → release_all fuel order s = Done s')
    ∧ reachable [] s'
    ∧ (acyclic s → heap s' = ∅).
Proof.
  induction order as [|a order IH]; intros owners s Hr Hp.
  - apply Permutation_nil_l in Hp as <-.
    exists 0%nat, s. split; [done|]. split; [done|].
    by apply acyclic_no_leak.
  - symmetry in Hp.
    pose proof (reachable_wf _ _ Hr) as Hwf. apply (wf_Permutation _ _ _ Hp) in Hwf.
    destruct (wf_release order s a Hwf) as (f & s1 & Hf & _ & (Hshr & _)).
    pose proof (reach_release owners order s a f s1 Hr Hp Hf) as Hr1.
    destruct (IH order s1 Hr1 (reflexivity _)) as (f2 & s' & Hall & Hr' & Hac).
    exists (Nat.max f f2), s'. split; [|split; [done|]].
    + intros fuel Hle. rewrite release_all_cons.
      destruct (fuel_mono f) as [Hm _]. rewrite (Hm fuel _ _ _ ltac:(lia) Hf).
      rewrite bind_Done. apply Hall. lia.
    + intros Hacs. apply Hac. by apply (acyclic_shrinks s).
Qed.

(** X12: the order of finalization does not matter.  From a reachable
    state, when the creators release their references one after the
    other in any order, every release returns; the handles destroyed on
    the way have each had their destructor called exactly once, on their
    own resource, and their record deallocated exactly once, and no
    other handle has been touched; and when the dependency arrays form no
    cycle, the heap is empty at the end. *)
Theorem finalization_in_any_order (owners order : list Z) (s : state) :
  reachable owners s → order ≡ₚ owners →
  ∃ fuel0 s' t,
    (∀ fuel, (fuel0 ≤ fuel)%nat → release_all fuel order s = Done s')
    ∧ reachable [] s'
    ∧ trace s' = trace s ++ t
    ∧ finalizes s s' t
    ∧ (acyclic s → heap s' = ∅).
Proof.
  intros Hr Hp.
  destruct (release_owners_returns order owners s Hr Hp) as (f & s' & Hall & Hr' & Hac).
  pose proof (reachable_wf _ _ Hr) as Hwf. symmetry in Hp.
  apply (wf_Permutation _ _ _ Hp) in Hwf. destruct Hwf as (Hc & _).
  destruct (release_all_once (Z.to_nat (live_count s))
              (release_once (Z.to_nat (live_count s))) order s [] f s')
    as (_ & t & Ht & Hfin); [lia|by rewrite app_nil_r|by apply Hall|].
  by exists f, s', t.
Qed.

(** ** Capsules *)

Lemma create_capsule_unfold p name d py :
  p ≠ NULL → d ≠ NULL →
  rclpy_create_handle_capsule p name d py =
    let H := (zero_allocate (graph py)).1 in
    if H =? NULL then Done (None, set_graph (zero_allocate (graph py)).2 py)
    else Done (PyCapsule_New H name (Some handle_capsule_destructor)
                 (set_graph (set_heap (<[H := mk_handle p 1 None 0 d]> (heap (graph py)))
                                      (zero_allocate (graph py)).2) py)).
Proof.
  intros Hp Hd. unfold rclpy_create_handle_capsule.
  rewrite create_unfold by done. simpl.
  destruct ((zero_allocate (graph py)).1 =? NULL) eqn:Hz; simpl; [done|].
  by rewrite Hz.
Qed.

Lemma create_capsule_Some p name d py cap py' :
  p ≠ NULL → d ≠ NULL →
  rclpy_create_handle_capsule p name d py = Done (Some cap, py') →
  ∃ H s',
    create p d (graph py) = Done (H, s') ∧ H ≠ NULL
    ∧ cap = PyCapsule H name (Some handle_capsule_destructor)
    ∧ graph py' = s' ∧ py_error py' = py_error py.
Proof.
  intros Hp Hd. rewrite create_capsule_unfold by done. cbv zeta.
  rewrite create_unfold by done.
  destruct ((zero_allocate (graph py)).1 =? NULL) eqn:Hz; [done|].
  apply Z.eqb_neq in Hz. unfold PyCapsule_New. rewrite (eqb_NULL_false _ Hz).
  simpl. destruct (py_script py) as [|[|] rest]; intros [= <- <-]; eexists _, _; done.
Qed.

Lemma reachable_owner_live owners s a :
  reachable owners s → a ∈ owners → ∃ h, live s a h.
Proof.
  intros Hr Ha. pose proof (reachable_wf _ _ Hr) as Hwf.
  pose proof Hwf as ((_ & _ & Hcount) & _). specialize (Hcount a).
  apply occ_pos_elem in Ha. pose proof (incoming_nonneg s a).
  unfold rcount in Hcount. destruct (heap s !! a) as [h|] eqn:Hh; [|lia].
  exists h. by apply (wf_live owners).
Qed.

(** X13: the capsule gives back the resource it was created for.  When
    [rclpy_create_handle_capsule] returns a capsule for a non-null
    resource and destructor, [rclpy_handle_get_pointer_from_capsule] with
    the same name returns that resource and raises nothing; with any
    other name it returns [NULL] and raises a [ValueError]. *)
Theorem capsule_pointer_round_trip
    (p d : Z) (name : option string) (py : py_state) (cap : PyObject) (py' : py_state) :
  p ≠ NULL → d ≠ NULL →
  rclpy_create_handle_capsule p name d py = Done (Some cap, py') →
  rclpy_handle_get_pointer_from_capsule (Some cap) name py' = Done (p, py')
  ∧ ∀ name', name' ≠ name →
      rclpy_handle_get_pointer_from_capsule (Some cap) name' py'
      = Done (NULL, py_raise PyExc_ValueError py').
Proof.
  intros Hp Hd Hc.
  destruct (create_capsule_Some p name d py cap py' Hp Hd Hc)
    as (H & s' & Hcr & HH & -> & Hg & _).
  destruct (create_result p d (graph py) H s' Hp Hd Hcr HH) as (_ & Hheap & _).
  unfold rclpy_handle_get_pointer_from_capsule, PyCapsule_GetPointer, is_legal_capsule.
  rewrite (eqb_NULL_false H HH). simpl. split.
  - rewrite bool_decide_eq_true_2 by done.
    unfold _rclpy_handle_get_pointer, load. rewrite (eqb_NULL_false H HH), Hg, Hheap.
    by rewrite lookup_insert_eq.
  - intros name' Hne. rewrite bool_decide_eq_false_2 by done. done.
Qed.

(** X14: the capsule that [rclpy_create_handle_capsule] returns carries
    [_rclpy_handle_capsule_destructor] as its destructor, and running
    that destructor on the capsule right after its creation undoes the
    creation: the heap is as before, the destructor of the resource has
    been called once on the resource, then the array and the record have
    been deallocated, and no exception is raised. *)
Theorem capsule_destructor_releases_the_handle
    (p d : Z) (name : option string) (py : py_state) (cap : PyObject) (py' : py_state)
    (fuel : nat) :
  p ≠ NULL → d ≠ NULL →
  rclpy_create_handle_capsule p name d py = Done (Some cap, py') →
  ∃ H py'',
    cap = PyCapsule H name (Some handle_capsule_destructor)
    ∧ _rclpy_handle_capsule_destructor (S (S fuel)) (Some cap) py' = Done py''
    ∧ heap (graph py'') = heap (graph py)
    ∧ trace (graph py'')
      = trace (graph py) ++ [EvDestructor H d p; EvFreeDependencies H; EvFreeHandle H]
    ∧ py_error py'' = py_error py.
Proof.
  intros Hp Hd Hc.
  destruct (create_capsule_Some p name d py cap py' Hp Hd Hc)
    as (H & s' & Hcr & HH & -> & Hg & He).
  exists H. unfold _rclpy_handle_capsule_destructor, PyCapsule_GetName,
    PyCapsule_GetPointer, is_legal_capsule.
  rewrite (eqb_NULL_false H HH). cbn -[_rclpy_handle_dec_ref].
  rewrite bool_decide_eq_true_2 by done. rewrite (eqb_NULL_false H HH), Hg.
  rewrite (release_created p d (graph py) H s' fuel Hp Hd Hcr HH). simpl.
  eexists. split; [done|]. split; [done|]. done.
Qed.

(** X15: [rclpy_create_handle_capsule] with non-null arguments always
    returns, and calls no destructor.  When the allocator gives no
    record, the result is [NULL] and the heap is unchanged.  When the
    allocator gives a record, the result is [NULL] exactly when
    [PyCapsule_New] has no memory for the capsule, with a [MemoryError]
    raised; in that case too the new handle record, with count 1, is in
    the heap: the function returns without releasing it. *)
Theorem capsule_creation_failures
    (p d : Z) (name : option string) (py : py_state) :
  p ≠ NULL → d ≠ NULL →
  ∃ res py',
    rclpy_create_handle_capsule p name d py = Done (res, py')
    ∧ trace (graph py') = trace (graph py)
    ∧ let H := (zero_allocate (graph py)).1 in
      (H = NULL → res = None ∧ heap (graph py') = heap (graph py))
      ∧ (H ≠ NULL →
         heap (graph py') = <[H := mk_handle p 1 None 0 d]> (heap (graph py))
         ∧ (res = None ↔ ∃ rest, py_script py = false :: rest)
         ∧ (res = None → py_error py' = Some PyExc_MemoryError)
         ∧ (res ≠ None → res = Some (PyCapsule H name (Some handle_capsule_destructor)))).
Proof.
  intros Hp Hd. rewrite create_capsule_unfold by done. cbv zeta.
  destruct ((zero_allocate (graph py)).1 =? NULL) eqn:Hz.
  - apply Z.eqb_eq in Hz. destruct (zero_allocate_null _ Hz) as [Hh Ht].
    eexists _, _. split; [done|]. simpl. split; [done|]. split; [done|]. done.
  - apply Z.eqb_neq in Hz. destruct (zero_allocate_ok _ Hz) as (_ & _ & Ht & _).
    unfold PyCapsule_New. rewrite (eqb_NULL_false _ Hz). simpl.
    destruct (py_script py) as [|[|] rest]; eexists _, _; (split; [done|]); simpl;
      (split; [done|]); (split; [done|]); intros _; (split; [done|]).
    + split; [|done]. split; [done|]. by intros (rest & ?).
    + split; [|done]. split; [done|]. by intros (rest' & ?).
    + split; [|done]. split; [by exists rest|done].
Qed.

(** X16: on an object that is not a legal capsule ([NULL], not a capsule,
    or a capsule with a [NULL] pointer) the capsule destructor releases
    nothing and returns, and [rclpy_handle_get_pointer_from_capsule]
    returns [NULL]; both leave the handle graph as it is and a
    [ValueError] raised. *)
Theorem capsule_functions_on_illegal_object
    (op : option PyObject) (name : option string) (py : py_state) (fuel : nat) :
  is_legal_capsule op = false →
  _rclpy_handle_capsule_destructor fuel op py = Done (py_raise PyExc_ValueError py)
  ∧ rclpy_handle_get_pointer_from_capsule op name py
    = Done (NULL, py_raise PyExc_ValueError py).
Proof.
  intros Hill. unfold _rclpy_handle_capsule_destructor,
    rclpy_handle_get_pointer_from_capsule, PyCapsule_GetName, PyCapsule_GetPointer.
  destruct op as [[ptr stored dtor|]|]; simpl in *; try done.
  rewrite Hill. done.
Qed.

(** X17: the finalization of a capsule is safe at any time.  In a
    reachable state, the capsule destructor run on the capsule of any
    handle whose creator's reference is outstanding returns, whatever the
    name of the capsule and whatever other handles depend on it or it
    depends on; the state it leaves is again reachable, with that
    reference given back, and no exception is raised. *)
Theorem capsule_finalization_is_safe
    (owners owners' : list Z) (py : py_state) (a : Z) (name : option string)
    (dtor : option capsule_destructor) :
  reachable owners (graph py) → owners ≡ₚ a :: owners' →
  ∃ fuel0 py',
    (∀ fuel, (fuel0 ≤ fuel)%nat →
       _rclpy_handle_capsule_destructor fuel (Some (PyCapsule a name dtor)) py = Done py')
    ∧ reachable owners' (graph py')
    ∧ py_error py' = py_error py.
Proof.
  intros Hr Hp.
  destruct (reachable_owner_live owners (graph py) a Hr) as (h & Ha & _).
  { rewrite Hp. by left. }
  pose proof (reachable_wf _ _ Hr) as Hwf. apply (wf_Permutation _ _ _ Hp) in Hwf.
  destruct (wf_release owners' (graph py) a Hwf) as (f & s' & Hf & _).
  exists f, (set_graph s' py). split; [|split; [|done]].
  - intros fuel Hle. unfold _rclpy_handle_capsule_destructor, PyCapsule_GetName,
      PyCapsule_GetPointer, is_legal_capsule.
    rewrite (eqb_NULL_false a Ha). cbn -[_rclpy_handle_dec_ref].
    rewrite bool_decide_eq_true_2 by done. rewrite (eqb_NULL_false a Ha).
    destruct (fuel_mono f) as [Hm _]. rewrite (Hm fuel _ _ _ Hle Hf). done.
  - by apply (reach_release owners owners' (graph py) a f s').
Qed.

(** ** Further concrete states: their properties, and instances of the
    theorems *)

Lemma one_handle_reachable : reachable [1] one_handle.
Proof.
  exact (reach_create [] (initial_state []) 101 201 1 one_handle
           (reach_initial []) ltac:(done) ltac:(done) one_handle_eq).
Qed.

Lemma two_handles_reachable : reachable [2; 1] two_handles.
Proof.
  exact (reach_create [1] one_handle 103 203 2 two_handles
           one_handle_reachable ltac:(done) ltac:(done) two_handles_eq).
Qed.

Lemma edge_state_reachable : reachable [2; 1] edge_state.
Proof.
  apply (reach_add_dependency [2; 1] two_handles 1 2 RCUTILS_RET_OK edge_state
           two_handles_reachable); [by eexists|by eexists|apply edge_state_eq].
Qed.

Lemma edge_owner_gone_eq : release 1 2 edge_state = Done edge_owner_gone.
Proof. vm_compute. reflexivity. Qed.

Lemma all_released_eq : release 4 1 edge_owner_gone = Done all_released.
Proof. vm_compute. reflexivity. Qed.

Lemma edge_owner_gone_reachable : reachable [1] edge_owner_gone.
Proof.
  exact (reach_release [2; 1] [1] edge_state 2 1 edge_owner_gone
           edge_state_reachable (reflexivity _) edge_owner_gone_eq).
Qed.

Lemma edge_state_acyclic : acyclic edge_state.
Proof.
  exists edge_level. intros x hx d. unfold edge_state. simpl.
  destruct (decide (x = 2)) as [->|H2].
  { rewrite lookup_insert_eq. intros [= <-]. simpl. intros Hd. by apply elem_of_nil in Hd. }
  rewrite lookup_insert_ne by done.
  destruct (decide (x = 1)) as [->|H1].
  { rewrite lookup_insert_eq. intros [= <-]. simpl. intros Hd.
    apply list_elem_of_singleton in Hd as ->. unfold edge_level. simpl. lia. }
  rewrite lookup_insert_ne by done. by rewrite lookup_empty.
Qed.

Lemma edge_owner_gone_acyclic : acyclic edge_owner_gone.
Proof.
  destruct (release_shrinks 1) as [Hshr _].
  apply (acyclic_shrinks edge_state);
    [apply (Hshr 2 _ _ edge_owner_gone_eq)|apply edge_state_acyclic].
Qed.

Lemma edge_owner_gone_chain :
  heap edge_owner_gone = chain_heap [(1, 101, 201); (2, 103, 203)] ∅.
Proof. vm_compute. reflexivity. Qed.

Lemma chain_two_ok : chain_ok [(1, 101, 201); (2, 103, 203)] ∅.
Proof.
  split.
  - apply NoDup_cons. split; [|apply NoDup_singleton].
    intros Hin. by apply list_elem_of_singleton in Hin.
  - repeat constructor; done.
Qed.

Lemma node_capsule_eq :
  rclpy_create_handle_capsule 101 node_name 201 empty_py = Done (Some node_capsule, node_py).
Proof. vm_compute. reflexivity. Qed.

Lemma count_is_number_of_references_witness :
  reachable [2; 1] edge_state
  ∧ heap edge_state !! 2 = Some (mk_handle 103 2 None 0 203)
  ∧ (ref_count (mk_handle 103 2 None 0 203)
       = (if bool_decide (2 ∈ [2; 1]) then 1 else 0) + incoming edge_state 2
     ∧ 1 ≤ ref_count (mk_handle 103 2 None 0 203)
     ∧ ref_count (mk_handle 103 2 None 0 203) + 1 < SIZE_MOD
     ∧ (num_of_dependencies (mk_handle 103 2 None 0 203) + 1) * SIZEOF_PTR < SIZE_MOD).
Proof.
  split; [apply edge_state_reachable|]. split; [reflexivity|].
  apply (count_is_number_of_references [2; 1] edge_state 2 (mk_handle 103 2 None 0 203));
    [apply edge_state_reachable|reflexivity].
Defined.

Lemma no_dangling_dependency_witness :
  reachable [2; 1] edge_state
  ∧ heap edge_state !! 1 = Some (mk_handle 101 1 (Some [2]) 1 201)
  ∧ 2 ∈ deps_list (mk_handle 101 1 (Some [2]) 1 201)
  ∧ ∃ hd, live edge_state 2 hd.
Proof.
  split; [apply edge_state_reachable|]. split; [reflexivity|]. split; [simpl; left|].
  apply (no_dangling_dependency [2; 1] edge_state 1 2 (mk_handle 101 1 (Some [2]) 1 201));
    [apply edge_state_reachable|reflexivity|simpl; left].
Defined.

Lemma owner_release_returns_witness :
  reachable [2; 1] edge_state
  ∧ [2; 1] ≡ₚ 1 :: [2]
  ∧ ∃ fuel0 s',
      (∀ fuel, (fuel0 ≤ fuel)%nat → release fuel 1 edge_state = Done s')
      ∧ reachable [2] s'
      ∧ (∀ b h', heap s' !! b = Some h' →
           ∃ h, heap edge_state !! b = Some h ∧ ref_count h' ≤ ref_count h).
Proof.
  split; [apply edge_state_reachable|]. split; [apply Permutation_swap|].
  apply (owner_release_returns [2; 1] [2] edge_state 1);
    [apply edge_state_reachable|apply Permutation_swap].
Defined.

Lemma dependency_outlives_dependent_witness :
  reachable [2; 1] edge_state
  ∧ 2 ∈ [2; 1]
  ∧ heap edge_state !! 1 = Some (mk_handle 101 1 (Some [2]) 1 201)
  ∧ 2 ∈ deps_list (mk_handle 101 1 (Some [2]) 1 201)
  ∧ heap edge_state !! 2 = Some (mk_handle 103 2 None 0 203)
  ∧ 2 ≤ ref_count (mk_handle 103 2 None 0 203)
  ∧ ∃ s', release 1 2 edge_state = Done s'
          ∧ heap s' = <[2 := set_ref_count (ref_count (mk_handle 103 2 None 0 203) - 1)
                               (mk_handle 103 2 None 0 203)]> (heap edge_state)
          ∧ trace s' = trace edge_state.
Proof.
  split; [apply edge_state_reachable|]. split; [left|]. split; [reflexivity|].
  split; [simpl; left|]. split; [reflexivity|].
  apply (dependency_outlives_dependent [2; 1] edge_state 1 2
           (mk_handle 101 1 (Some [2]) 1 201) (mk_handle 103 2 None 0 203) 0);
    [apply edge_state_reachable|left|reflexivity|simpl; left|reflexivity].
Defined.

Lemma acyclic_records_are_held_witness :
  reachable [1] edge_owner_gone
  ∧ acyclic edge_owner_gone
  ∧ (∀ a h, heap edge_owner_gone !! a = Some h → held_from [1] edge_owner_gone a)
  ∧ ([1] = [] → heap edge_owner_gone = ∅).
Proof.
  split; [apply edge_owner_gone_reachable|]. split; [apply edge_owner_gone_acyclic|].
  apply (acyclic_records_are_held [1] edge_owner_gone);
    [apply edge_owner_gone_reachable|apply edge_owner_gone_acyclic].
Defined.

Lemma add_dependency_frame_witness :
  add_dependency 1 2 two_handles = Done (RCUTILS_RET_OK, edge_state)
  ∧ trace edge_state = trace two_handles
  ∧ (∀ a, heap edge_state !! a = None ↔ heap two_handles !! a = None)
  ∧ (∀ a h, heap two_handles !! a = Some h →
       ∃ h', heap edge_state !! a = Some h'
             ∧ ptr h' = ptr h ∧ destructor h' = destructor h
             ∧ (a ≠ 1 → dependencies h' = dependencies h
                        ∧ num_of_dependencies h' = num_of_dependencies h)
             ∧ (a ≠ 2 → ref_count h' = ref_count h)).
Proof.
  split; [apply edge_state_eq|].
  apply (add_dependency_frame two_handles 1 2 RCUTILS_RET_OK edge_state), edge_state_eq.
Defined.

Lemma release_frame_witness :
  release 1 2 edge_state = Done edge_owner_gone
  ∧ alloc_script edge_owner_gone = alloc_script edge_state
  ∧ (∃ t, trace edge_owner_gone = trace edge_state ++ t)
  ∧ (∀ b h', heap edge_owner_gone !! b = Some h' →
       ∃ h, heap edge_state !! b = Some h
            ∧ ptr h' = ptr h ∧ dependencies h' = dependencies h
            ∧ num_of_dependencies h' = num_of_dependencies h
            ∧ destructor h' = destructor h).
Proof.
  split; [apply edge_owner_gone_eq|].
  apply (release_frame 1 2 edge_state edge_owner_gone), edge_owner_gone_eq.
Defined.

Lemma resource_pointer_is_stable_witness :
  1 ≠ NULL
  ∧ get_pointer 1 edge_state = Done 101
  ∧ (∀ r d H s', create r d edge_state = Done (H, s') → get_pointer 1 s' = Done 101)
  ∧ (∀ x y r s', add_dependency x y edge_state = Done (r, s') →
       get_pointer 1 s' = Done 101)
  ∧ (∀ fuel b s', release fuel b edge_state = Done s' →
       get_pointer 1 s' = Done 101 ∨ heap s' !! 1 = None).
Proof.
  split; [discriminate|]. split; [reflexivity|].
  apply (resource_pointer_is_stable edge_state 1 101); [discriminate|reflexivity].
Defined.

Lemma create_then_release_witness :
  101 ≠ NULL ∧ 201 ≠ NULL
  ∧ create 101 201 (initial_state []) = Done (1, one_handle)
  ∧ 1 ≠ NULL
  ∧ ∃ s'',
      release 2 1 one_handle = Done s''
      ∧ heap s'' = heap (initial_state [])
      ∧ trace s'' = trace (initial_state [])
                    ++ [EvDestructor 1 201 101; EvFreeDependencies 1; EvFreeHandle 1].
Proof.
  split; [discriminate|]. split; [discriminate|]. split; [apply one_handle_eq|].
  split; [discriminate|].
  apply (create_then_release 101 201 (initial_state []) 1 one_handle 0);
    [discriminate|discriminate|apply one_handle_eq|discriminate].
Defined.

Lemma chain_released_in_order_witness :
  chain_ok [(1, 101, 201); (2, 103, 203)] ∅
  ∧ heap edge_owner_gone = chain_heap [(1, 101, 201); (2, 103, 203)] ∅
  ∧ (2 * S (length [(2, 103, 203)]) ≤ 4)%nat
  ∧ ∃ s',
      release 4 1 edge_owner_gone = Done s'
      ∧ heap s' = ∅
      ∧ trace s' = trace edge_owner_gone ++ chain_events [(1, 101, 201); (2, 103, 203)]
      ∧ ∀ x, x ∈ chain_addrs [(1, 101, 201); (2, 103, 203)] →
             destructor_calls x (chain_events [(1, 101, 201); (2, 103, 203)]) = 1%nat.
Proof.
  split; [apply chain_two_ok|]. split; [apply edge_owner_gone_chain|].
  split; [simpl; lia|].
  apply (chain_released_in_order 1 101 201 [(2, 103, 203)] ∅ edge_owner_gone 4);
    [apply chain_two_ok|apply edge_owner_gone_chain|simpl; lia].
Defined.

Lemma destroyed_handles_are_finalized_once_witness :
  reachable [1] edge_owner_gone
  ∧ 1 ∈ [1]
  ∧ release 4 1 edge_owner_gone = Done all_released
  ∧ ∃ t, trace all_released = trace edge_owner_gone ++ t
         ∧ finalizes edge_owner_gone all_released t.
Proof.
  split; [apply edge_owner_gone_reachable|]. split; [left|]. split; [apply all_released_eq|].
  apply (destroyed_handles_are_finalized_once [1] edge_owner_gone 1 4 all_released);
    [apply edge_owner_gone_reachable|left|apply all_released_eq].
Defined.

Lemma finalization_in_any_order_witness :
  reachable [2; 1] edge_state
  ∧ [1; 2] ≡ₚ [2; 1]
  ∧ ∃ fuel0 s' t,
      (∀ fuel, (fuel0 ≤ fuel)%nat → release_all fuel [1; 2] edge_state = Done s')
      ∧ reachable [] s'
      ∧ trace s' = trace edge_state ++ t
      ∧ finalizes edge_state s' t
      ∧ (acyclic edge_state → heap s' = ∅).
Proof.
  split; [apply edge_state_reachable|]. split; [apply Permutation_swap|].
  apply (finalization_in_any_order [2; 1] [1; 2] edge_state);
    [apply edge_state_reachable|apply Permutation_swap].
Defined.

Lemma capsule_pointer_round_trip_witness :
  101 ≠ NULL ∧ 201 ≠ NULL
  ∧ rclpy_create_handle_capsule 101 node_name 201 empty_py = Done (Some node_capsule, node_py)
  ∧ rclpy_handle_get_pointer_from_capsule (Some node_capsule) node_name node_py
    = Done (101, node_py)
  ∧ ∀ name', name' ≠ node_name →
      rclpy_handle_get_pointer_from_capsule (Some node_capsule) name' node_py
      = Done (NULL, py_raise PyExc_ValueError node_py).
Proof.
  split; [discriminate|]. split; [discriminate|]. split; [apply node_capsule_eq|].
  apply (capsule_pointer_round_trip 101 201 node_name empty_py node_capsule node_py);
    [discriminate|discriminate|apply node_capsule_eq].
Defined.

Lemma capsule_destructor_releases_the_handle_witness :
  101 ≠ NULL ∧ 201 ≠ NULL
  ∧ rclpy_create_handle_capsule 101 node_name 201 empty_py = Done (Some node_capsule, node_py)
  ∧ ∃ H py'',
      node_capsule = PyCapsule H node_name (Some handle_capsule_destructor)
      ∧ _rclpy_handle_capsule_destructor 2 (Some node_capsule) node_py = Done py''
      ∧ heap (graph py'') = heap (graph empty_py)
      ∧ trace (graph py'')
        = trace (graph empty_py)
          ++ [EvDestructor H 201 101; EvFreeDependencies H; EvFreeHandle H]
      ∧ py_error py'' = py_error empty_py.
Proof.
  split; [discriminate|]. split; [discriminate|]. split; [apply node_capsule_eq|].
  apply (capsule_destructor_releases_the_handle
           101 201 node_name empty_py node_capsule node_py 0);
    [discriminate|discriminate|apply node_capsule_eq].
Defined.

Lemma capsule_creation_failures_witness :
  101 ≠ NULL ∧ 201 ≠ NULL
  ∧ ∃ res py',
      rclpy_create_handle_capsule 101 node_name 201 empty_py = Done (res, py')
      ∧ trace (graph py') = trace (graph empty_py)
      ∧ let H := (zero_allocate (graph empty_py)).1 in
        (H = NULL → res = None ∧ heap (graph py') = heap (graph empty_py))
        ∧ (H ≠ NULL →
           heap (graph py') = <[H := mk_handle 101 1 None 0 201]> (heap (graph empty_py))
           ∧ (res = None ↔ ∃ rest, py_script empty_py = false :: rest)
           ∧ (res = None → py_error py' = Some PyExc_MemoryError)
           ∧ (res ≠ None →
              res = Some (PyCapsule H node_name (Some handle_capsule_destructor)))).
Proof.
  split; [discriminate|]. split; [discriminate|].
  apply (capsule_creation_failures 101 201 node_name empty_py); discriminate.
Defined.

Lemma capsule_functions_on_illegal_object_witness :
  is_legal_capsule (Some PyNotCapsule) = false
  ∧ _rclpy_handle_capsule_destructor 0 (Some PyNotCapsule) empty_py
    = Done (py_raise PyExc_ValueError empty_py)
  ∧ rclpy_handle_get_pointer_from_capsule (Some PyNotCapsule) node_name empty_py
    = Done (NULL, py_raise PyExc_ValueError empty_py).
Proof.
  split; [reflexivity|].
  apply (capsule_functions_on_illegal_object (Some PyNotCapsule) node_name empty_py 0).
  reflexivity.
Defined.

Lemma capsule_finalization_is_safe_witness :
  reachable [2; 1] (graph (mk_py edge_state None []))
  ∧ [2; 1] ≡ₚ 1 :: [2]
  ∧ ∃ fuel0 py',
      (∀ fuel, (fuel0 ≤ fuel)%nat →
         _rclpy_handle_capsule_destructor fuel
           (Some (PyCapsule 1 node_name (Some handle_capsule_destructor)))
           (mk_py edge_state None []) = Done py')
      ∧ reachable [2] (graph py')
      ∧ py_error py' = py_error (mk_py edge_state None []).
Proof.
  split; [apply edge_state_reachable|]. split; [apply Permutation_swap|].
  apply (capsule_finalization_is_safe [2; 1] [2] (mk_py edge_state None []) 1 node_name
           (Some handle_capsule_destructor));
    [apply edge_state_reachable|apply Permutation_swap].
Defined.
